(** * Challenge2eVR: grab-control and teleport-arc

    A shallow embedding of the two A-Frame components of the repository,
    [grab-control] (src/assets/js/move-objects.js) and [teleport-arc]
    (the second source file), and the properties of their specification.

    Conventions of the embedding.
    - A JavaScript number is a real number ([R]): arithmetic is exact, the
      rounding of IEEE doubles and of the [Float32Array] that backs the arc
      line is outside the model.
    - A handler runs in a state-and-exception monad over the component and
      the part of the host it touches.  A handler that throws leaves the
      state as it was at the throw, as an uncaught exception in an event
      listener does.
    - THREE.Vector3 is embedded from its documented arithmetic; the scene
      raycaster and the frames of the scene graph are parameters.  Ammo.js
      is a parameter too, taken with the methods its interface description
      declares where a property depends on them; [setActivationState]
      follows the rule of Bullet. *)

From Stdlib Require Import Reals Lra Lia List String ZArith.
From stdpp Require Import base list gmap.

(** ** JavaScript completions: a state and exception monad *)

Module Js.

Inductive Exn : Type :=
| TypeError        (* a property read or a call on [undefined] *)
| ReferenceError.  (* an identifier with no binding *)

Inductive Completion (A : Type) : Type :=
| Normal (a : A)
| Throw (e : Exn).
Arguments Normal {A} a.
Arguments Throw {A} e.

Definition M (S A : Type) : Type := S -> Completion A * S.

Definition ret {S A} (a : A) : M S A := fun s => (Normal a, s).

Definition bind {S A B} (m : M S A) (k : A -> M S B) : M S B :=
  fun s =>
    match m s with
    | (Normal a, s') => k a s'
    | (Throw e, s') => (Throw e, s')
    end.

Definition throw {S A} (e : Exn) : M S A := fun s => (Throw e, s).

Definition get {S} : M S S := fun s => (Normal s, s).

Definition modify {S} (f : S -> S) : M S unit := fun s => (Normal tt, f s).

(** [try { m } catch (e) { h }] *)
Definition try_catch {S A} (m : M S A) (h : M S A) : M S A :=
  fun s =>
    match m s with
    | (Normal a, s') => (Normal a, s')
    | (Throw _, s') => h s'
    end.

(** The state a handler leaves behind, whether it returned or threw. *)
Definition exec {S A} (m : M S A) (s : S) : S := snd (m s).

End Js.

Declare Scope js_scope.
Delimit Scope js_scope with js.
Notation "'let*' x ':=' m 'in' k" := (Js.bind m (fun x => k))
  (at level 10, x name, m at level 100, k at level 200) : js_scope.
Notation "m ';;' k" := (Js.bind m (fun _ => k))
  (at level 100, k at level 200, right associativity) : js_scope.

(** ** THREE.Vector3 *)

Module Three.
Local Open Scope R_scope.

Record Vector3 : Type := vec3 { x : R; y : R; z : R }.

Definition sub (a b : Vector3) : Vector3 :=
  vec3 (x a - x b) (y a - y b) (z a - z b).

Definition add (a b : Vector3) : Vector3 :=
  vec3 (x a + x b) (y a + y b) (z a + z b).

Definition multiplyScalar (a : Vector3) (k : R) : Vector3 :=
  vec3 (x a * k) (y a * k) (z a * k).

Definition divideScalar (a : Vector3) (k : R) : Vector3 :=
  multiplyScalar a (1 / k).

(** [a.addScaledVector(v, k)]: [a + v * k], componentwise. *)
Definition addScaledVector (a v : Vector3) (k : R) : Vector3 :=
  vec3 (x a + x v * k) (y a + y v * k) (z a + z v * k).

Definition lengthSq (a : Vector3) : R := x a * x a + y a * y a + z a * z a.

Definition length (a : Vector3) : R := sqrt (lengthSq a).

(** [normalize] divides by [length() || 1]: the zero vector is left as is. *)
Definition normalize (a : Vector3) : Vector3 :=
  divideScalar a (if Req_dec_T (length a) 0 then 1 else length a).

Definition distanceToSquared (a b : Vector3) : R :=
  let dx := x a - x b in
  let dy := y a - y b in
  let dz := z a - z b in
  dx * dx + dy * dy + dz * dz.

Definition distanceTo (a b : Vector3) : R := sqrt (distanceToSquared a b).

End Three.

(** [a < b] on JavaScript numbers, as a boolean. *)
Definition Rltb (a b : R) : bool := if Rlt_dec a b then true else false.

(** ** grab-control (src/assets/js/move-objects.js) *)

Module GrabControl.
Import Js Three.
Local Open Scope R_scope.

(** [el.body]: the rigid body the physics driver attaches to an entity. *)
Record Body : Type := { body_id : nat }.

(** The data of the [movement] component, as [getAttribute] returns it. *)
Record Movement : Type := { movement_type : string }.

(** A scene entity, as far as [grab-control] looks at it. *)
Record Entity : Type := {
  el_id : nat;                      (* identity, for [===] *)
  has_ammo_body : bool;             (* matches the selector [ammo-body] *)
  movement : option Movement;       (* [getAttribute('movement')] *)
  mesh : option nat;                (* [getObject3D('mesh')] *)
  worldPosition : Vector3;          (* [object3D.getWorldPosition] *)
  body : option Body                (* [el.body] *)
}.

(** [el === this.el] *)
Definition same_el (a b : Entity) : bool := Nat.eqb (el_id a) (el_id b).

(** [movement && movement.type === 'grabbable'] *)
Definition isGrabbable (e : Entity) : bool :=
  match movement e with
  | Some m => String.eqb (movement_type m) "grabbable"
  | None => false
  end.

(** [sceneEl.querySelectorAll('[ammo-body]')], in document order. *)
Definition querySelectorAll_ammo_body (scene : list Entity) : list Entity :=
  List.filter has_ammo_body scene.

(** The scan of [onButtonDown]: the body of its [for] loop, run over the
    remaining elements with the current [closestEl] and [minDist]. *)
Fixpoint scan (self : Entity) (handPos : Vector3) (els : list Entity)
  (closestEl : option Entity) (minDist : R) : option Entity * R :=
  match els with
  | [] => (closestEl, minDist)
  | e :: rest =>
      if same_el e self then scan self handPos rest closestEl minDist
      else if negb (isGrabbable e) then scan self handPos rest closestEl minDist
      else
        match mesh e with
        | None => scan self handPos rest closestEl minDist
        | Some _ =>
            let dist := distanceTo handPos (worldPosition e) in
            if Rltb dist minDist
            then scan self handPos rest (Some e) dist
            else scan self handPos rest closestEl minDist
        end
  end.

(** The interaction radius: the initial [minDist]. *)
Definition interactionRadius : R := 0.3.

(** [closestEl] once the loop of [onButtonDown] is over. *)
Definition closestEl (self : Entity) (scene : list Entity) : option Entity :=
  fst (scan self (worldPosition self) (querySelectorAll_ammo_body scene)
         None interactionRadius).

(** *** Ammo.js

    The library is not part of the repository.  Its transforms are a type
    with a product, an inverse and an identity; each method the component
    calls is a function from the receiver (and the arguments) before the
    call to the receiver, or the argument, after it. *)
Class AmmoAPI : Type := {
  btTransform : Type;
  (* the product, the inverse, the identity, the pose of a body *)
  compose : btTransform -> btTransform -> btTransform;
  inv : btTransform -> btTransform;
  identity : btTransform;
  worldTransform : Body -> btTransform;
  (* [new ammo.btTransform()]: a transform fresh from the constructor *)
  btTransform_new : btTransform;
  (* [body.getWorldTransform(arg)]: [arg] after the call *)
  getWorldTransform : Body -> btTransform -> btTransform;
  (* [t.inverse()]: [t] after the call *)
  inverse : btTransform -> btTransform;
  (* [r.op_mul(a, b)]: [r] after the call *)
  op_mul : btTransform -> btTransform -> btTransform -> btTransform;
  (* [t.setIdentity()]: [t] after the call *)
  setIdentity : btTransform -> btTransform
}.

(** The methods as the interface description of Ammo.js declares them.
    [getWorldTransform()] has no parameter and returns the transform of the
    body: an argument passed to it is left as it was.  [inverse()] returns
    the inverse as a new value and leaves its receiver as it was.
    [op_mul(t)] is the operator [*=]: it multiplies its receiver by its one
    parameter, on the right, and a second argument is not looked at.
    [setIdentity()] updates its receiver. *)
Record AmmoContract (L : AmmoAPI) : Prop := {
  getWorldTransform_returns : forall b out, getWorldTransform b out = out;
  inverse_returns : forall t, inverse t = t;
  op_mul_in_place : forall r a b, op_mul r a b = compose r a;
  setIdentity_in_place : forall t, setIdentity t = identity
}.

Record btVector3 : Type := mk_btVector3 { bx : R; by_ : R; bz : R }.

Section Component.
Context {L : AmmoAPI}.

(** A [btGeneric6DofConstraint].  The constructor copies the two frames;
    a limit is [None] until the component sets it. *)
Record Constraint : Type := {
  handle : nat;
  rbA : Body;
  rbB : Body;
  frameInA : btTransform;
  frameInB : btTransform;
  useLinearReferenceFrameA : bool;
  linearLowerLimit : option btVector3;
  linearUpperLimit : option btVector3;
  angularLowerLimit : option btVector3;
  angularUpperLimit : option btVector3
}.

(** The component together with the part of the host it reads and writes. *)
Record State : Type := {
  (* the component *)
  el : Entity;                                (* [this.el], the hand *)
  constraint : option Constraint;             (* [this.constraint] *)
  grabbedObject : option Entity;              (* [this.grabbedObject] *)
  (* the host *)
  scene : list Entity;                        (* the scene, document order *)
  window_Ammo : bool;                         (* [window.Ammo] is set *)
  global_ammo : bool;                         (* a global named [ammo] exists *)
  physicsWorld : option (list (Constraint * bool));
    (* [sceneEl.systems.physics.driver.physicsWorld]: its constraints, each
       with the flag that disables collisions between the linked bodies *)
  activationState : gmap nat Z;               (* per body id *)
  emitted : list (nat * string);              (* events, oldest first *)
  next_handle : nat;                          (* native objects created *)
  live : list nat                             (* created and not destroyed *)
}.

Definition set_constraint (c : option Constraint) (s : State) : State :=
  {| el := el s; constraint := c; grabbedObject := grabbedObject s;
     scene := scene s; window_Ammo := window_Ammo s;
     global_ammo := global_ammo s; physicsWorld := physicsWorld s;
     activationState := activationState s; emitted := emitted s;
     next_handle := next_handle s; live := live s |}.

Definition set_grabbedObject (g : option Entity) (s : State) : State :=
  {| el := el s; constraint := constraint s; grabbedObject := g;
     scene := scene s; window_Ammo := window_Ammo s;
     global_ammo := global_ammo s; physicsWorld := physicsWorld s;
     activationState := activationState s; emitted := emitted s;
     next_handle := next_handle s; live := live s |}.

Definition set_physicsWorld (w : option (list (Constraint * bool)))
  (s : State) : State :=
  {| el := el s; constraint := constraint s;
     grabbedObject := grabbedObject s;
     scene := scene s; window_Ammo := window_Ammo s;
     global_ammo := global_ammo s; physicsWorld := w;
     activationState := activationState s; emitted := emitted s;
     next_handle := next_handle s; live := live s |}.

Definition set_activationState (a : gmap nat Z) (s : State) : State :=
  {| el := el s; constraint := constraint s;
     grabbedObject := grabbedObject s;
     scene := scene s; window_Ammo := window_Ammo s;
     global_ammo := global_ammo s; physicsWorld := physicsWorld s;
     activationState := a; emitted := emitted s;
     next_handle := next_handle s; live := live s |}.

Definition set_emitted (ev : list (nat * string)) (s : State) : State :=
  {| el := el s; constraint := constraint s;
     grabbedObject := grabbedObject s;
     scene := scene s; window_Ammo := window_Ammo s;
     global_ammo := global_ammo s; physicsWorld := physicsWorld s;
     activationState := activationState s; emitted := ev;
     next_handle := next_handle s; live := live s |}.

Definition set_native (n : nat) (l : list nat) (s : State) : State :=
  {| el := el s; constraint := constraint s;
     grabbedObject := grabbedObject s;
     scene := scene s; window_Ammo := window_Ammo s;
     global_ammo := global_ammo s; physicsWorld := physicsWorld s;
     activationState := activationState s; emitted := emitted s;
     next_handle := n; live := l |}.

(** [init]: nothing held, no constraint. *)
Definition init (s : State) : State :=
  set_grabbedObject None (set_constraint None s).

(** [new ammo.X(...)]: a fresh native object. *)
Definition new_native : M State nat :=
  fun s => (Normal (next_handle s),
            set_native (S (next_handle s)) (live s ++ [next_handle s]) s).

(** [ammo.destroy(h)] *)
Definition destroy (h : nat) : M State unit :=
  modify (fun s =>
    set_native (next_handle s) (List.filter (fun k => negb (Nat.eqb k h)) (live s)) s).

(** A body in DISABLE_DEACTIVATION (4) or DISABLE_SIMULATION (5).  A body
    that is not in the map is in the state its construction gave it,
    ACTIVE_TAG (1). *)
Definition activation_locked (st : option Z) : bool :=
  match st with
  | Some k => Z.eqb k 4 || Z.eqb k 5
  | None => false
  end.

(** The activation states after [setActivationState(k)] on the body [id]:
    Bullet takes the new state unless the body is in state 4 or 5. *)
Definition write_activation (id : nat) (k : Z) (a : gmap nat Z) : gmap nat Z :=
  if activation_locked (a !! id) then a else <[id := k]> a.
Arguments write_activation : simpl never.

(** [body.setActivationState(k)] *)
Definition setActivationState (b : Body) (k : Z) : M State unit :=
  modify (fun s =>
    set_activationState (write_activation (body_id b) k (activationState s)) s).

(** [e.emit(name)] *)
Definition emit (e : Entity) (name : string) : M State unit :=
  modify (fun s => set_emitted (emitted s ++ [(el_id e, name)]) s).

(** [sceneEl.systems.physics.driver.physicsWorld.addConstraint(c, flag)];
    the read of [driver] on a missing physics system is a TypeError. *)
Definition addConstraint (c : Constraint) (flag : bool) : M State unit :=
  fun s =>
    match physicsWorld s with
    | None => (Throw TypeError, s)
    | Some w => (Normal tt, set_physicsWorld (Some (w ++ [(c, flag)])) s)
    end.

(** [...physicsWorld.removeConstraint(c)] *)
Definition removeConstraint (c : Constraint) : M State unit :=
  fun s =>
    match physicsWorld s with
    | None => (Throw TypeError, s)
    | Some w =>
        (Normal tt,
         set_physicsWorld
           (Some (List.filter (fun p => negb (Nat.eqb (handle (fst p)) (handle c))) w)) s)
    end.

(** The four [set...Limit] calls on [this.constraint]. *)
Definition setLimits (lower upper : btVector3) (c : Constraint) : Constraint :=
  {| handle := handle c; rbA := rbA c; rbB := rbB c;
     frameInA := frameInA c; frameInB := frameInB c;
     useLinearReferenceFrameA := useLinearReferenceFrameA c;
     linearLowerLimit := Some lower;
     linearUpperLimit := Some upper;
     angularLowerLimit := Some lower;
     angularUpperLimit := Some upper |}.

Local Open Scope js_scope.

Definition grab (target : Entity) : M State unit :=
  let* s := get in
  match body (el s), body target with
  | Some handBody, Some objectBody =>
      modify (set_grabbedObject (Some target)) ;;
      if negb (window_Ammo s) then ret tt else
      (* position of the object relative to the hand *)
      let* h_handWorldInv := new_native in
      let handWorldInv := inverse (getWorldTransform handBody btTransform_new) in
      let* h_objWorld := new_native in
      let objWorld := getWorldTransform objectBody btTransform_new in
      let* h_localFrameA := new_native in
      let localFrameA := op_mul btTransform_new handWorldInv objWorld in
      let* h_localFrameB := new_native in
      let localFrameB := setIdentity btTransform_new in
      let* h_constraint := new_native in
      let c :=
        {| handle := h_constraint; rbA := handBody; rbB := objectBody;
           frameInA := localFrameA; frameInB := localFrameB;
           useLinearReferenceFrameA := false;
           linearLowerLimit := None; linearUpperLimit := None;
           angularLowerLimit := None; angularUpperLimit := None |} in
      modify (set_constraint (Some c)) ;;
      (* lock all axes *)
      let* h_lower := new_native in
      let lower := mk_btVector3 0 0 0 in
      let* h_upper := new_native in
      let upper := mk_btVector3 0 0 0 in
      let c := setLimits lower upper c in
      modify (set_constraint (Some c)) ;;
      addConstraint c true ;;
      destroy h_lower ;;
      destroy h_upper ;;
      destroy h_handWorldInv ;;
      destroy h_objWorld ;;
      destroy h_localFrameA ;;
      destroy h_localFrameB ;;
      emit target "grab-start" ;;
      setActivationState objectBody 4
  | _, _ => ret tt
  end.

Definition onButtonDown : M State unit :=
  let* s := get in
  match grabbedObject s with
  | Some _ => ret tt
  | None =>
      match closestEl (el s) (scene s) with
      | Some c => grab c
      | None => ret tt
      end
  end.

Definition release : M State unit :=
  let* s := get in
  match constraint s with
  | None => ret tt
  | Some c =>
      removeConstraint c ;;
      (* [ammo] is a constant of [grab]; here it is a free identifier *)
      (if global_ammo s then destroy (handle c) else throw ReferenceError) ;;
      modify (set_constraint None) ;;
      match grabbedObject s with
      | Some g =>
          match body g with
          | None => throw TypeError
          | Some b =>
              setActivationState b 1 ;;
              emit g "grab-end" ;;
              modify (set_grabbedObject None)
          end
      | None => ret tt
      end
  end.

Definition onButtonUp : M State unit :=
  let* s := get in
  match grabbedObject s with
  | Some _ => release
  | None => ret tt
  end.

(** The two events the component listens to, and a run of the component
    over a sequence of them. *)
Inductive Event : Type := ButtonDown | ButtonUp.

Definition handle_event (ev : Event) : M State unit :=
  match ev with
  | ButtonDown => onButtonDown
  | ButtonUp => onButtonUp
  end.

Definition run (evs : list Event) (s : State) : State :=
  fold_left (fun st ev => exec (handle_event ev) st) evs s.

(** The constraints of this controller that are in the physics world. *)
Definition activeConstraints (s : State) : list (Constraint * bool) :=
  match physicsWorld s with
  | Some w => w
  | None => []
  end.

End Component.
End GrabControl.

(** ** teleport-arc (the second source file) *)

Module TeleportArc.
Import Js Three.
Local Open Scope R_scope.

(** The component's [schema], but for [rig], which [init] resolves. *)
Record Schema : Type := {
  samples : nat;
  velocity : R;
  gravity : Vector3;
  landingClass : string
}.

Definition defaults : Schema :=
  {| samples := 30; velocity := 6.0; gravity := vec3 0 (-9.8) 0;
     landingClass := "teleportable" |}.

(** The world frame of a parent in the scene graph. *)
Record Frame : Type := {
  localToWorld : Vector3 -> Vector3;
  worldToLocal : Vector3 -> Vector3
}.

Record Object3D : Type := {
  position : Vector3;          (* relative to the parent *)
  parent : option Frame
}.

Definition getWorldPosition (o : Object3D) : Vector3 :=
  match parent o with
  | Some f => localToWorld f (position o)
  | None => position o
  end.

(** [el.body] of the rig: its [setWorldTransform] method, when it has one,
    is [Some throws], where [throws] tells whether a call fails. *)
Record RigBody : Type := { setWorldTransform : option bool }.

Record Rig : Type := {
  object3D : Object3D;
  ammo_body : bool;            (* [getAttribute('ammo-body')] is truthy *)
  rig_body : option RigBody    (* [rigEl.body] *)
}.

(** [sceneEl.camera]: its world position depends on the scene graph, of
    which the rig is the part [doTeleport] changes. *)
Record Camera : Type := { camera_worldPosition : Object3D -> Vector3 }.

(** The global [CANNON], which the physics branch of [doTeleport] names. *)
Inductive CannonGlobal : Type :=
| CANNON_unbound
| CANNON_namespace                              (* an object, as cannon.js *)
| CANNON_function (Transform_constructs : bool).

(** What the raycaster returns for an intersected object: [object.el] and
    its [classList]. *)
Record HitEl : Type := { classList : option (list string) }.

Record Intersection : Type := {
  point : Vector3;
  object_el : option HitEl
}.

(** A ray as [raycaster.set(origin, direction)] and [raycaster.far] make it. *)
Record Ray : Type := { origin : Vector3; direction : Vector3; far : R }.

Record State : Type := {
  data : Schema;
  (* the component *)
  visible : bool;
  hitPoint : option Vector3;
  cameraRig : option Rig;
  line_visible : bool;
  cursorMesh_visible : bool;
  cursorMesh_position : Vector3;
  positions : list R;          (* the [position] attribute of the line *)
  needsUpdate : bool;
  (* the host *)
  camera : option Camera;
  el_worldPosition : Vector3;  (* the controller *)
  el_worldDirection : Vector3;
  intersectObjects : Ray -> list Intersection;
  CANNON : CannonGlobal;
  setWorldTransform_calls : nat
}.

Definition set_arc (v : bool) (lv : bool) (cv : bool) (h : option Vector3)
  (s : State) : State :=
  {| data := data s; visible := v; hitPoint := h; cameraRig := cameraRig s;
     line_visible := lv; cursorMesh_visible := cv;
     cursorMesh_position := cursorMesh_position s;
     positions := positions s; needsUpdate := needsUpdate s;
     camera := camera s; el_worldPosition := el_worldPosition s;
     el_worldDirection := el_worldDirection s;
     intersectObjects := intersectObjects s; CANNON := CANNON s;
     setWorldTransform_calls := setWorldTransform_calls s |}.

Definition set_cameraRig (r : option Rig) (s : State) : State :=
  {| data := data s; visible := visible s; hitPoint := hitPoint s;
     cameraRig := r;
     line_visible := line_visible s;
     cursorMesh_visible := cursorMesh_visible s;
     cursorMesh_position := cursorMesh_position s;
     positions := positions s; needsUpdate := needsUpdate s;
     camera := camera s; el_worldPosition := el_worldPosition s;
     el_worldDirection := el_worldDirection s;
     intersectObjects := intersectObjects s; CANNON := CANNON s;
     setWorldTransform_calls := setWorldTransform_calls s |}.

Definition set_calls (n : nat) (s : State) : State :=
  {| data := data s; visible := visible s; hitPoint := hitPoint s;
     cameraRig := cameraRig s;
     line_visible := line_visible s;
     cursorMesh_visible := cursorMesh_visible s;
     cursorMesh_position := cursorMesh_position s;
     positions := positions s; needsUpdate := needsUpdate s;
     camera := camera s; el_worldPosition := el_worldPosition s;
     el_worldDirection := el_worldDirection s;
     intersectObjects := intersectObjects s; CANNON := CANNON s;
     setWorldTransform_calls := n |}.

Definition set_frame (p : list R) (h : option Vector3) (c : Vector3)
  (s : State) : State :=
  {| data := data s; visible := visible s; hitPoint := h;
     cameraRig := cameraRig s;
     line_visible := line_visible s;
     cursorMesh_visible := false;
     cursorMesh_position := c;
     positions := p; needsUpdate := true;
     camera := camera s; el_worldPosition := el_worldPosition s;
     el_worldDirection := el_worldDirection s;
     intersectObjects := intersectObjects s; CANNON := CANNON s;
     setWorldTransform_calls := setWorldTransform_calls s |}.

(** [new Float32Array(this.data.samples * 3)]: the position array of
    [init], all zeros. *)
Definition init_positions (d : Schema) : list R :=
  List.repeat 0 (samples d * 3).

Definition showArc (s : State) : State :=
  set_arc true true false (hitPoint s) s.

Definition hideArc (s : State) : State :=
  set_arc false false false None s.

(** [rigObj.position.copy(v)] *)
Definition set_position (v : Vector3) (r : Rig) : Rig :=
  {| object3D := {| position := v; parent := parent (object3D r) |};
     ammo_body := ammo_body r; rig_body := rig_body r |}.

(** [if (rigObj.parent) rigObj.parent.worldToLocal(newRigWorld);
     rigObj.position.copy(newRigWorld);] *)
Definition assign_position (r : Rig) (newRigWorld : Vector3) : M State unit :=
  let v :=
    match parent (object3D r) with
    | Some f => worldToLocal f newRigWorld
    | None => newRigWorld
    end in
  modify (set_cameraRig (Some (set_position v r))).

Local Open Scope js_scope.

(** [new CANNON ? new CANNON.Transform() : null], evaluated for its
    completion: [new CANNON] comes first and is an object when it returns. *)
Definition new_CANNON_Transform : M State unit :=
  let* s := get in
  match CANNON s with
  | CANNON_unbound => throw ReferenceError
  | CANNON_namespace => throw TypeError
  | CANNON_function true => ret tt
  | CANNON_function false => throw TypeError
  end.

(** [rigEl.body.setWorldTransform && rigEl.body.setWorldTransform(...)] *)
Definition try_setWorldTransform (b : RigBody) : M State unit :=
  match setWorldTransform b with
  | None => ret tt
  | Some throws =>
      new_CANNON_Transform ;;
      if throws then throw TypeError
      else modify (fun s => set_calls (S (setWorldTransform_calls s)) s)
  end.

Definition doTeleport : M State unit :=
  let* s := get in
  if negb (visible s) then ret tt else
  match hitPoint s, cameraRig s with
  | Some hit, Some rigEl =>
      match camera s with
      | None => ret tt
      | Some cam =>
          let cameraWorldPos := camera_worldPosition cam (object3D rigEl) in
          let rigWorldPos := getWorldPosition (object3D rigEl) in
          let offset := sub cameraWorldPos rigWorldPos in
          let newRigWorld := sub hit offset in
          (if ammo_body rigEl then
             match rig_body rigEl with
             | Some b =>
                 try_catch (try_setWorldTransform b)
                           (assign_position rigEl newRigWorld)
             | None => assign_position rigEl newRigWorld
             end
           else assign_position rigEl newRigWorld) ;;
          modify hideArc
      end
  | _, _ => modify hideArc
  end.

Local Close Scope js_scope.

(** [el && el.classList && el.classList.contains(landingClass)] *)
Definition isLanding (cls : string) (it : Intersection) : bool :=
  match object_el it with
  | Some e =>
      match classList e with
      | Some l => existsb (String.eqb cls) l
      | None => false
      end
  | None => false
  end.

(** The time step between two samples. *)
Definition dt : R := 0.06.

Section Arc.
Variable cls : string.
Variable cast : Ray -> list Intersection.
Variables worldPos v0 g : Vector3.

(** [pos] of iteration [i] of the loop of [tick]. *)
Definition pos_at (i : nat) : Vector3 :=
  let t := INR i * 0.06 in
  addScaledVector (addScaledVector worldPos v0 t) g (0.5 * t * t).

(** The three writes of iteration [i] into the position array; a typed
    array ignores a write past its end. *)
Definition write_sample (i : nat) (pos : Vector3) (buf : list R) : list R :=
  <[(i * 3 + 2)%nat := z pos]>
    (<[(i * 3 + 1)%nat := y pos]> (<[(i * 3)%nat := x pos]> buf)).

(** The ray of a segment, when the segment has a length. *)
Definition segment_ray (prevPoint pos : Vector3) : option Ray :=
  let segDir := sub pos prevPoint in
  let len := length segDir in
  if Rltb 0 len
  then Some {| origin := prevPoint; direction := normalize segDir; far := len |}
  else None.

(** The inner loop: the first intersection on a landing surface. *)
Definition first_landing (intersects : list Intersection) : option Vector3 :=
  option_map point (List.find (isLanding cls) intersects).

(** The [for] loop of [tick], with [n] iterations left from index [i]:
    the position array, [hit], and the rays cast, in order. *)
Fixpoint arcLoop (n i : nat) (prevPoint : option Vector3) (buf : list R)
  (rays : list Ray) : list R * option Vector3 * list Ray :=
  match n with
  | O => (buf, None, rays)
  | S n' =>
      let pos := pos_at i in
      let buf := write_sample i pos buf in
      match prevPoint with
      | Some p =>
          match segment_ray p pos with
          | Some r =>
              match first_landing (cast r) with
              | Some hit => (buf, Some hit, rays ++ [r])
              | None => arcLoop n' (S i) (Some pos) buf (rays ++ [r])
              end
          | None => arcLoop n' (S i) (Some pos) buf rays
          end
      | None => arcLoop n' (S i) (Some pos) buf rays
      end
  end.

End Arc.

(** The loop of [tick] in a state: [forward], [g] and [v0] as [tick]
    computes them. *)
Definition arc (s : State) : list R * option Vector3 * list Ray :=
  let worldPos := el_worldPosition s in
  let forward := normalize (el_worldDirection s) in
  let g := vec3 (x (gravity (data s))) (y (gravity (data s)))
                (z (gravity (data s))) in
  let v0 := multiplyScalar forward (velocity (data s)) in
  arcLoop (landingClass (data s)) (intersectObjects s) worldPos v0 g
          (samples (data s)) 0 None (positions s) [].

Definition tick (s : State) : State :=
  if negb (visible s) then s else
  let '(buf, hit, _) := arc s in
  match hit with
  | Some h => set_frame buf (Some h) h s
  | None => set_frame buf None (cursorMesh_position s) s
  end.

(** The rays [tick] casts in a state. *)
Definition raysCast (s : State) : list Ray :=
  if negb (visible s) then [] else snd (arc s).

End TeleportArc.

(** ** Notions of the specification *)

Module GrabSpec.
Import Three GrabControl.
Local Open Scope R_scope.

(** The distance of an entity to the hand. *)
Definition dist (self e : Entity) : R :=
  distanceTo (worldPosition self) (worldPosition e).

(** What the scan requires of a candidate before it measures it: it is not
    the hand, it is marked grabbable, and it has a mesh. *)
Definition eligible (self e : Entity) : Prop :=
  same_el e self = false /\ isGrabbable e = true /\ mesh e <> None.

(** What the specification requires: not the hand, and marked grabbable. *)
Definition grabbable_candidate (self e : Entity) : Prop :=
  same_el e self = false /\ isGrabbable e = true.

Section Sessions.
Context {L : AmmoAPI}.

(** The constraint [grab] builds between two bodies, with native handle
    [h]: the frames as the calls of [grab] compute them, every limit zero. *)
Definition welded (handBody objectBody : Body) (h : nat) : Constraint :=
  {| handle := h; rbA := handBody; rbB := objectBody;
     frameInA :=
       op_mul btTransform_new
         (inverse (getWorldTransform handBody btTransform_new))
         (getWorldTransform objectBody btTransform_new);
     frameInB := setIdentity btTransform_new;
     useLinearReferenceFrameA := false;
     linearLowerLimit := Some (mk_btVector3 0 0 0);
     linearUpperLimit := Some (mk_btVector3 0 0 0);
     angularLowerLimit := Some (mk_btVector3 0 0 0);
     angularUpperLimit := Some (mk_btVector3 0 0 0) |}.

(** The native handle of a constraint differs from [h]. *)
Definition other_handle (h : nat) (p : Constraint * bool) : Prop :=
  handle (fst p) <> h.

(** The invariant of a controller in a physics world that held the
    constraints [w0] when the controller was initialised: the world holds
    [w0] and at most one constraint more, which is the one the controller
    refers to while it holds an entity. *)
Definition session_invariant (w0 : list (Constraint * bool)) (s : State) : Prop :=
  Forall (fun p => (handle (fst p) < next_handle s)%nat) w0 /\
  (forall c, constraint s = Some c ->
     (handle c < next_handle s)%nat /\ Forall (other_handle (handle c)) w0) /\
  (activeConstraints s = w0 \/
   exists c, physicsWorld s = Some (w0 ++ [(c, true)]) /\
             constraint s = Some c /\ grabbedObject s <> None).

End Sessions.

End GrabSpec.

(** ** A concrete scene

    An instance of the Ammo interface, and a hand with three bodies around
    it, to run the component on. *)

Module Scene.
Import Three GrabControl.
Local Open Scope R_scope.

(** Transforms of a line: [(a, b)] is the map [x |-> a * x + b], a basis
    and an origin.  The rigid motions are those with [a] equal to 1 or -1. *)
Definition Motion : Type := (Z * Z)%type.

Definition motion_compose (p q : Motion) : Motion :=
  (fst p * fst q, fst p * snd q + snd p)%Z.

(** The inverse of a rigid motion. *)
Definition motion_inv (p : Motion) : Motion :=
  (fst p, - (fst p * snd p))%Z.

(** A body stands at its number on the line. *)
Definition motion_of_body (b : Body) : Motion :=
  (1%Z, Z.of_nat (body_id b)).

(** The methods as Ammo.js has them.  The constructor of a transform
    initialises nothing; a fresh transform is taken to be all zeros. *)
#[local] Instance line_ammo : AmmoAPI := {|
  btTransform := Motion;
  compose := motion_compose;
  inv := motion_inv;
  identity := (1%Z, 0%Z);
  worldTransform := motion_of_body;
  btTransform_new := (0%Z, 0%Z);
  getWorldTransform := fun _ out => out;
  inverse := fun t => t;
  op_mul := fun r a _ => motion_compose r a;
  setIdentity := fun _ => (1%Z, 0%Z)
|}.

Definition grabbable_movement : option Movement :=
  Some {| movement_type := "grabbable" |}.

Definition hand : Entity :=
  {| el_id := 0; has_ammo_body := true; movement := None; mesh := Some 0%nat;
     worldPosition := vec3 0 0 0; body := Some {| body_id := 1 |} |}.

(** A grabbable body with no mesh, at 0.1 from the hand. *)
Definition ghost : Entity :=
  {| el_id := 1; has_ammo_body := true; movement := grabbable_movement;
     mesh := None;
     worldPosition := vec3 0.1 0 0; body := Some {| body_id := 2 |} |}.

(** A grabbable body with a mesh, at 0.2 from the hand. *)
Definition cube : Entity :=
  {| el_id := 2; has_ammo_body := true; movement := grabbable_movement;
     mesh := Some 1%nat;
     worldPosition := vec3 0.2 0 0; body := Some {| body_id := 3 |} |}.

(** A grabbable body with a mesh, at the interaction radius. *)
Definition rim : Entity :=
  {| el_id := 3; has_ammo_body := true; movement := grabbable_movement;
     mesh := Some 2%nat;
     worldPosition := vec3 0.3 0 0; body := Some {| body_id := 4 |} |}.

(** The component after [init], with Ammo loaded, a physics world with no
    constraint, and no global named [ammo]. *)
Definition idle : State :=
  {| el := hand; constraint := None; grabbedObject := None;
     scene := [hand; ghost; cube];
     window_Ammo := true; global_ammo := false;
     physicsWorld := Some [];
     activationState := ∅; emitted := [];
     next_handle := 0; live := [] |}.

(** The same, holding the cube. *)
Definition holding : State := Js.exec (grab cube) idle.

(** The idle component on a page where [window.Ammo] is not set. *)
Definition idle_no_Ammo : State :=
  {| el := hand; constraint := None; grabbedObject := None;
     scene := [hand; ghost; cube];
     window_Ammo := false; global_ammo := false;
     physicsWorld := Some [];
     activationState := ∅; emitted := [];
     next_handle := 0; live := [] |}.

(** The idle component in a scene with no physics system. *)
Definition idle_no_physics : State :=
  {| el := hand; constraint := None; grabbedObject := None;
     scene := [hand; ghost; cube];
     window_Ammo := true; global_ammo := false;
     physicsWorld := None;
     activationState := ∅; emitted := [];
     next_handle := 0; live := [] |}.

End Scene.

Module TeleportSpec.
Import Js Three TeleportArc.
Local Open Scope R_scope.

(** The closed form of the specification:
    [origin + v0·(i·dt) + 0.5·g·(i·dt)²]. *)
Definition trajectory (origin v0 g : Vector3) (i : nat) : Vector3 :=
  let t := INR i * dt in
  add (add origin (multiplyScalar v0 t))
      (multiplyScalar (multiplyScalar g 0.5) (t * t)).

(** The initial velocity: the controller's normalized forward direction
    scaled by the configured velocity. *)
Definition launch (s : State) : Vector3 :=
  multiplyScalar (normalize (el_worldDirection s)) (velocity (data s)).

(** Sample [i] of the arc of a state, by the closed form. *)
Definition sample (s : State) (i : nat) : Vector3 :=
  trajectory (el_worldPosition s) (launch s) (gravity (data s)) i.

(** The ray the specification asks for between two points: from the
    earlier one towards the later one, as far as their distance. *)
Definition pair_ray (pq : Vector3 * Vector3) : Ray :=
  {| origin := fst pq;
     direction := divideScalar (sub (snd pq) (fst pq)) (distanceTo (fst pq) (snd pq));
     far := distanceTo (fst pq) (snd pq) |}.

(** The consecutive pairs of the first [n] points of a sequence. *)
Definition consecutive_pairs (pts : nat -> Vector3) (n : nat)
  : list (Vector3 * Vector3) :=
  List.map (fun i => (pts i, pts (S i))) (seq 0 (n - 1)).

(** The two points of a pair are apart. *)
Definition apart (pq : Vector3 * Vector3) : bool :=
  Rltb 0 (distanceTo (fst pq) (snd pq)).

(** The rays of the consecutive pairs of samples that are apart. *)
Definition segment_rays (s : State) : list Ray :=
  List.map pair_ray
    (List.filter apart (consecutive_pairs (sample s) (samples (data s)))).

(** No intersection of a ray is on a landing surface. *)
Definition no_landing (s : State) (r : Ray) : Prop :=
  forall it, In it (intersectObjects s r) ->
             isLanding (landingClass (data s)) it = false.

(** [h] is the point of the first intersection of a ray that is on a
    landing surface. *)
Definition first_landing_at (s : State) (r : Ray) (h : Vector3) : Prop :=
  exists l1 it l2,
    intersectObjects s r = l1 ++ it :: l2 /\
    (forall it', In it' l1 -> isLanding (landingClass (data s)) it' = false) /\
    isLanding (landingClass (data s)) it = true /\
    h = point it.

Section Control.
Variable cls : string.
Variable cast : Ray -> list Intersection.
Variables worldPos v0 g : Vector3.

(** [prevPoint] at the start of iteration [i]. *)
Definition prev_of (i : nat) : option Vector3 :=
  match i with
  | O => None
  | S k => Some (pos_at worldPos v0 g k)
  end.

(** Iteration [i] of the loop finds a landing hit on its segment. *)
Definition lands_at (i : nat) : bool :=
  match prev_of i with
  | Some p =>
      match segment_ray p (pos_at worldPos v0 g i) with
      | Some r =>
          match first_landing cls (cast r) with
          | Some _ => true
          | None => false
          end
      | None => false
      end
  | None => false
  end.

(** The ray of iteration [i]: one when its segment has a length. *)
Definition seg_rays (i : nat) : list Ray :=
  match prev_of i with
  | Some p =>
      match segment_ray p (pos_at worldPos v0 g i) with
      | Some r => [r]
      | None => []
      end
  | None => []
  end.

(** The rays of the iterations [i], ..., [i + n - 1]. *)
Fixpoint rays_from (n i : nat) : list Ray :=
  match n with
  | O => []
  | S n' => seg_rays i ++ rays_from n' (S i)
  end.

End Control.

(** Iteration [i] of [tick] in a state finds a landing hit. *)
Definition lands (s : State) (i : nat) : bool :=
  lands_at (landingClass (data s)) (intersectObjects s)
           (el_worldPosition s) (launch s) (gravity (data s)) i.

(** The rig position [doTeleport] assigns. *)
Definition landing_position (hit : Vector3) (cam : Camera) (r : Rig) : Vector3 :=
  let offset := sub (camera_worldPosition cam (object3D r))
                    (getWorldPosition (object3D r)) in
  match parent (object3D r) with
  | Some f => worldToLocal f (sub hit offset)
  | None => sub hit offset
  end.

(** The rig moves by the direct assignment: it is not physics-driven, or
    the update of its physics body throws. *)
Definition assigns_directly (s : State) (r : Rig) : Prop :=
  ammo_body r = false \/ rig_body r = None \/
  exists b e, rig_body r = Some b /\ fst (try_setWorldTransform b s) = Throw e.

(** The update of the physics body of a physics-driven rig cannot go
    through: the body has a [setWorldTransform] method, as a rigid body of
    the physics driver has, and the page has no constructor [CANNON] with
    a constructor [CANNON.Transform], so that evaluating the argument of the
    call throws before the call is made. *)
Definition physics_update_fails (s : State) (r : Rig) : Prop :=
  ammo_body r = true ->
  forall b, rig_body r = Some b ->
    setWorldTransform b <> None /\ CANNON s <> CANNON_function true.

End TeleportSpec.

(** ** A concrete aim *)

Module Aim.
Import Js Three TeleportArc.
Local Open Scope R_scope.

(** A rig at the origin of the scene, not physics-driven. *)
Definition rig : Rig :=
  {| object3D := {| position := vec3 0 0 0; parent := None |};
     ammo_body := false; rig_body := None |}.

(** A rig with an [ammo-body] whose body has no [setWorldTransform]. *)
Definition physics_rig : Rig :=
  {| object3D := {| position := vec3 0 0 0; parent := None |};
     ammo_body := true;
     rig_body := Some {| setWorldTransform := None |} |}.

(** A camera mounted on the rig, 1.6 above it. *)
Definition head : Camera :=
  {| camera_worldPosition := fun o => add (getWorldPosition o) (vec3 0 1.6 0) |}.

(** A floor everywhere: every ray meets a landing surface at the origin. *)
Definition floor_hit : Intersection :=
  {| point := vec3 0 0 0;
     object_el := Some {| classList := Some ["teleportable"%string] |} |}.

(** The default configuration, a controller at height 1 that points along
    -z, and the position array as [init] allocates it. *)
Definition aiming : State :=
  {| data := defaults;
     visible := true; hitPoint := Some (vec3 0 0 (-5));
     cameraRig := Some rig;
     line_visible := true; cursorMesh_visible := false;
     cursorMesh_position := vec3 0 0 0;
     positions := init_positions defaults;
     needsUpdate := false;
     camera := Some head;
     el_worldPosition := vec3 0 1 0;
     el_worldDirection := vec3 0 0 (-1);
     intersectObjects := fun _ => [floor_hit];
     CANNON := CANNON_unbound;
     setWorldTransform_calls := 0 |}.

(** The same aim before the scene has a camera. *)
Definition aiming_no_camera : State :=
  {| data := data aiming;
     visible := true; hitPoint := Some (vec3 0 0 (-5));
     cameraRig := Some rig;
     line_visible := true; cursorMesh_visible := false;
     cursorMesh_position := vec3 0 0 0;
     positions := positions aiming;
     needsUpdate := false;
     camera := None;
     el_worldPosition := vec3 0 1 0;
     el_worldDirection := vec3 0 0 (-1);
     intersectObjects := fun _ => [floor_hit];
     CANNON := CANNON_unbound;
     setWorldTransform_calls := 0 |}.

(** The same aim with the physics-driven rig. *)
Definition aiming_physics_rig : State := set_cameraRig (Some physics_rig) aiming.

(** An arc that does not move: no velocity, no gravity, two samples. *)
Definition still : State :=
  {| data := {| samples := 2; velocity := 0; gravity := vec3 0 0 0;
                landingClass := "teleportable" |};
     visible := true; hitPoint := None;
     cameraRig := Some rig;
     line_visible := true; cursorMesh_visible := false;
     cursorMesh_position := vec3 0 0 0;
     positions := init_positions
                    {| samples := 2; velocity := 0; gravity := vec3 0 0 0;
                       landingClass := "teleportable" |};
     needsUpdate := false;
     camera := Some head;
     el_worldPosition := vec3 0 1 0;
     el_worldDirection := vec3 0 0 (-1);
     intersectObjects := fun _ => [floor_hit];
     CANNON := CANNON_unbound;
     setWorldTransform_calls := 0 |}.

End Aim.

(** ** An aim with a physics-driven rig *)

Module AimPhysics.
Import Js Three TeleportArc Aim.
Local Open Scope R_scope.

(** A platform the rig stands on: a frame one unit up. *)
Definition platform : Frame :=
  {| localToWorld := fun v => add v (vec3 0 1 0);
     worldToLocal := fun v => sub v (vec3 0 1 0) |}.

(** A physics-driven rig on the platform.  Its body is a rigid body of the
    Ammo driver: it has a [setWorldTransform] method, and a call of it
    would return. *)
Definition ammo_rig : Rig :=
  {| object3D := {| position := vec3 0 0 0; parent := Some platform |};
     ammo_body := true;
     rig_body := Some {| setWorldTransform := Some false |} |}.

(** The aim of [aiming] with this rig, on a page with no global [CANNON]. *)
Definition aiming_ammo_rig : State := set_cameraRig (Some ammo_rig) aiming.

End AimPhysics.

(** ** Further notions for grab-control *)

Module GrabNotions.
Import Three GrabControl GrabSpec.
Local Open Scope R_scope.

(** An entity the scan can select: it matches the selector, is not the
    hand, is marked grabbable, has a mesh, and is closer than the radius. *)
Definition in_reach (self e : Entity) : bool :=
  has_ammo_body e && negb (same_el e self) && isGrabbable e &&
  (match mesh e with Some _ => true | None => false end) &&
  Rltb (dist self e) interactionRadius.

(** A log of grab sessions that are all over: a [grab-start] on an entity,
    then a [grab-end] on the same entity, any number of times. *)
Inductive sessions_closed : list (nat * string) -> Prop :=
| closed_nil : sessions_closed []
| closed_snoc (l : list (nat * string)) (e : nat) :
    sessions_closed l ->
    sessions_closed (l ++ [(e, "grab-start"%string); (e, "grab-end"%string)]).

Section Log.
Context {L : AmmoAPI}.

(** The event log of a controller: closed sessions, followed by the
    [grab-start] of the entity it holds when a session is open. *)
Definition sessions_logged (s : State) : Prop :=
  sessions_closed (emitted s) \/
  exists l g,
    emitted s = l ++ [(el_id g, "grab-start"%string)] /\
    sessions_closed l /\ grabbedObject s = Some g.

(** The same, with what keeps it true from one event to the next: while
    no session is open, a constraint the controller still refers to is in
    no physics world. *)
Definition log_invariant (s : State) : Prop :=
  (sessions_closed (emitted s) /\
   (constraint s = None \/ physicsWorld s = None)) \/
  exists l g,
    emitted s = l ++ [(el_id g, "grab-start"%string)] /\
    sessions_closed l /\ grabbedObject s = Some g.

End Log.

End GrabNotions.

(** ** More of the concrete scene *)

Module Pages.
Import Three GrabControl Scene.
Local Open Scope R_scope.
#[local] Existing Instance line_ammo.

(** The idle controller on a page that binds the identifier [ammo]. *)
Definition idle_ammo_bound : State :=
  {| el := hand; constraint := None; grabbedObject := None;
     scene := [hand; ghost; cube];
     window_Ammo := true; global_ammo := true;
     physicsWorld := Some [];
     activationState := ∅; emitted := [];
     next_handle := 0; live := [] |}.

(** A grabbable body with a mesh, at 0.1 from the hand. *)
Definition ball : Entity :=
  {| el_id := 4; has_ammo_body := true; movement := grabbable_movement;
     mesh := Some 3%nat;
     worldPosition := vec3 0.1 0 0; body := Some {| body_id := 5 |} |}.

(** A hand with no physics body. *)
Definition bare_hand : Entity :=
  {| el_id := 0; has_ammo_body := true; movement := None; mesh := Some 0%nat;
     worldPosition := vec3 0 0 0; body := None |}.

Definition idle_bare_hand : State :=
  {| el := bare_hand; constraint := None; grabbedObject := None;
     scene := [bare_hand; ghost; cube];
     window_Ammo := true; global_ammo := false;
     physicsWorld := Some [];
     activationState := ∅; emitted := [];
     next_handle := 0; live := [] |}.

End Pages.

(** ** The components on their entities: listeners and events *)

Module GrabMounted.
Import Js Three GrabControl.

(** The two functions [init] binds and registers on [this.el]. *)
Inductive Handler : Type := OnButtonDown | OnButtonUp.

Definition same_handler (a b : Handler) : bool :=
  match a, b with
  | OnButtonDown, OnButtonDown | OnButtonUp, OnButtonUp => true
  | _, _ => false
  end.

(** The listeners [init] adds to [this.el], for the [button] of the schema:
    [addEventListener(button + 'down', onButtonDown)] and
    [addEventListener(button + 'up', onButtonUp)]. *)
Definition listeners (button : string) : list (string * Handler) :=
  [(String.append button "down", OnButtonDown);
   (String.append button "up", OnButtonUp)].

Section Dispatch.
Context {L : AmmoAPI}.

Definition run_handler (h : Handler) : M State unit :=
  match h with
  | OnButtonDown => onButtonDown
  | OnButtonUp => onButtonUp
  end.

(** An event of a given name on [this.el]: the listeners registered under
    that name run in order; one that throws does not stop the next. *)
Fixpoint dispatch (name : string) (ls : list (string * Handler)) (s : State)
  : State :=
  match ls with
  | [] => s
  | (t, h) :: rest =>
      if String.eqb t name
      then dispatch name rest (exec (run_handler h) s)
      else dispatch name rest s
  end.

End Dispatch.
End GrabMounted.

Module TeleportMounted.
Import Js Three TeleportArc.
Local Open Scope R_scope.

(** The three functions [init] binds and registers on [this.el]. *)
Inductive Handler : Type := ShowArc | DoTeleport | HideArc.

Definition same_handler (a b : Handler) : bool :=
  match a, b with
  | ShowArc, ShowArc | DoTeleport, DoTeleport | HideArc, HideArc => true
  | _, _ => false
  end.

Definition run_handler (h : Handler) : M State unit :=
  match h with
  | ShowArc => modify showArc
  | DoTeleport => doTeleport
  | HideArc => modify hideArc
  end.

(** The component on its entity: its state, the listeners of [this.el]
    that are functions of the component, and whether the line and the
    cursor have a parent in the scene graph. *)
Record Mounted : Type := {
  component : State;
  listeners : list (string * Handler);
  line_attached : bool;
  cursor_attached : bool
}.

(** [addEventListener]: a listener already registered under the name is
    not added again. *)
Definition addEventListener (t : string) (h : Handler)
  (ls : list (string * Handler)) : list (string * Handler) :=
  if existsb (fun l => String.eqb (fst l) t && same_handler (snd l) h) ls
  then ls else ls ++ [(t, h)].

Definition removeEventListener (t : string) (h : Handler)
  (ls : list (string * Handler)) : list (string * Handler) :=
  List.filter (fun l => negb (String.eqb (fst l) t && same_handler (snd l) h)) ls.

(** The fields [init] sets: the arc hidden, no landing hit, a position
    array of zeros, the line and the cursor invisible. *)
Definition init_state (s : State) : State :=
  {| data := data s; visible := false; hitPoint := None;
     cameraRig := cameraRig s;
     line_visible := false; cursorMesh_visible := false;
     cursorMesh_position := vec3 0 0 0;
     positions := init_positions (data s); needsUpdate := false;
     camera := camera s; el_worldPosition := el_worldPosition s;
     el_worldDirection := el_worldDirection s;
     intersectObjects := intersectObjects s; CANNON := CANNON s;
     setWorldTransform_calls := setWorldTransform_calls s |}.

(** [init]: the line is added to the entity, the cursor to the scene, and
    the three listeners are registered. *)
Definition init (s : State) : Mounted :=
  {| component := init_state s;
     listeners :=
       addEventListener "controllerdisconnected" HideArc
         (addEventListener "triggerup" DoTeleport
            (addEventListener "triggerdown" ShowArc []));
     line_attached := true;
     cursor_attached := true |}.

(** [remove]: the three listeners are removed, and the line and the cursor
    are taken out of their parents. *)
Definition remove (m : Mounted) : Mounted :=
  {| component := component m;
     listeners :=
       removeEventListener "controllerdisconnected" HideArc
         (removeEventListener "triggerup" DoTeleport
            (removeEventListener "triggerdown" ShowArc (listeners m)));
     line_attached := false;
     cursor_attached := false |}.

(** An event of a given name on [this.el]. *)
Fixpoint dispatch_to (name : string) (ls : list (string * Handler)) (s : State)
  : State :=
  match ls with
  | [] => s
  | (t, h) :: rest =>
      if String.eqb t name
      then dispatch_to name rest (exec (run_handler h) s)
      else dispatch_to name rest s
  end.

(** The controller as the host has moved it. *)
Definition set_pose (p d : Vector3) (s : State) : State :=
  {| data := data s; visible := visible s; hitPoint := hitPoint s;
     cameraRig := cameraRig s;
     line_visible := line_visible s;
     cursorMesh_visible := cursorMesh_visible s;
     cursorMesh_position := cursorMesh_position s;
     positions := positions s; needsUpdate := needsUpdate s;
     camera := camera s; el_worldPosition := p;
     el_worldDirection := d;
     intersectObjects := intersectObjects s; CANNON := CANNON s;
     setWorldTransform_calls := setWorldTransform_calls s |}.

(** What happens to a mounted component: an event on its entity, or a
    frame, with the pose of the controller at that frame. *)
Inductive Event : Type :=
| Dom (name : string)
| Frame (p d : Vector3).

Definition step (ev : Event) (m : Mounted) : Mounted :=
  match ev with
  | Dom name =>
      {| component := dispatch_to name (listeners m) (component m);
         listeners := listeners m;
         line_attached := line_attached m;
         cursor_attached := cursor_attached m |}
  | Frame p d =>
      {| component := tick (set_pose p d (component m));
         listeners := listeners m;
         line_attached := line_attached m;
         cursor_attached := cursor_attached m |}
  end.

Definition run (evs : list Event) (m : Mounted) : Mounted :=
  fold_left (fun m ev => step ev m) evs m.

(** What holds of the arc at every moment. *)
Definition arc_consistent (n : nat) (s : State) : Prop :=
  line_visible s = visible s /\
  cursorMesh_visible s = false /\
  (visible s = false -> hitPoint s = None) /\
  List.length (positions s) = n.

End TeleportMounted.

(** * Properties *)

Section Reals.
Local Open Scope R_scope.

Lemma Rltb_true (a b : R) : a < b -> Rltb a b = true.
Proof. intros H. unfold Rltb. destruct (Rlt_dec a b); [reflexivity | contradiction]. Qed.

Lemma Rltb_false (a b : R) : ~ a < b -> Rltb a b = false.
Proof. intros H. unfold Rltb. destruct (Rlt_dec a b); [contradiction | reflexivity]. Qed.

Lemma Rltb_spec (a b : R) : Rltb a b = true <-> a < b.
Proof.
  unfold Rltb. destruct (Rlt_dec a b); split; intros; auto; discriminate.
Qed.

(** A point on the x axis is at its abscissa from the origin. *)
Lemma distanceTo_x_axis (d : R) :
  0 <= d -> Three.distanceTo (Three.vec3 0 0 0) (Three.vec3 d 0 0) = d.
Proof.
  intros Hd. unfold Three.distanceTo, Three.distanceToSquared. simpl.
  replace ((0 - d) * (0 - d) + (0 - 0) * (0 - 0) + (0 - 0) * (0 - 0))
    with (d * d) by ring.
  apply sqrt_square, Hd.
Qed.

(** [c - (h - o) = o] leaves [c = h]. *)
Lemma sub_sub_cancel (c h o : Three.Vector3) :
  Three.sub c (Three.sub h o) = o -> c = h.
Proof.
  destruct c as [cx cy cz], h as [hx hy hz], o as [ox oy oz].
  unfold Three.sub. simpl. intros H. injection H as H1 H2 H3.
  f_equal; lra.
Qed.

Lemma vec3_eta (v : Three.Vector3) :
  Three.vec3 (Three.x v) (Three.y v) (Three.z v) = v.
Proof. destruct v. reflexivity. Qed.

(** The length of [q - p] is the distance between [p] and [q]. *)
Lemma length_sub (p q : Three.Vector3) :
  Three.length (Three.sub q p) = Three.distanceTo p q.
Proof.
  unfold Three.length, Three.lengthSq, Three.distanceTo, Three.distanceToSquared.
  simpl. f_equal. ring.
Qed.

End Reals.

Module GrabScan.
Import Three GrabControl GrabSpec.
Local Open Scope R_scope.

Lemma eligible_dec (self e : Entity) : {eligible self e} + {~ eligible self e}.
Proof.
  unfold eligible.
  destruct (same_el e self); [right; intros [H _]; discriminate |].
  destruct (isGrabbable e); [| right; intros (_ & H & _); discriminate].
  destruct (mesh e); [left | right]; intuition congruence.
Qed.

(** One iteration of the scan on an entity that is not eligible. *)
Lemma scan_skip self hp e rest c m :
  ~ eligible self e ->
  scan self hp (e :: rest) c m = scan self hp rest c m.
Proof.
  intros H. simpl. unfold eligible in H.
  destruct (same_el e self); [reflexivity |].
  destruct (isGrabbable e); simpl; [| reflexivity].
  destruct (mesh e); [| reflexivity].
  exfalso. apply H. intuition congruence.
Qed.

(** One iteration of the scan on an eligible entity. *)
Lemma scan_measure self hp e rest c m :
  eligible self e ->
  scan self hp (e :: rest) c m =
    if Rltb (distanceTo hp (worldPosition e)) m
    then scan self hp rest (Some e) (distanceTo hp (worldPosition e))
    else scan self hp rest c m.
Proof.
  intros (H1 & H2 & H3). simpl. rewrite H1, H2. simpl.
  destruct (mesh e); [reflexivity | congruence].
Qed.

(** The invariant of the scan: either nothing eligible in [els] is closer
    than [m], and the result is the one it started from; or the result is
    the first eligible entity of [els] at the least distance, closer than
    [m]. *)
Lemma scan_spec self els : forall c m,
  (scan self (worldPosition self) els c m = (c, m) /\
   forall e, In e els -> eligible self e -> m <= dist self e)
  \/
  (exists l1 e l2,
     els = l1 ++ e :: l2 /\
     scan self (worldPosition self) els c m = (Some e, dist self e) /\
     eligible self e /\ dist self e < m /\
     (forall e', In e' l1 -> eligible self e' -> dist self e < dist self e') /\
     (forall e', In e' l2 -> eligible self e' -> dist self e <= dist self e')).
Proof.
  induction els as [| a rest IH]; intros c m.
  - left. split; [reflexivity | intros e []].
  - destruct (eligible_dec self a) as [Ha | Ha].
    + rewrite (scan_measure _ _ _ _ _ _ Ha). fold (dist self a).
      destruct (Rlt_dec (dist self a) m) as [Hlt | Hge].
      * rewrite (Rltb_true _ _ Hlt).
        destruct (IH (Some a) (dist self a))
          as [[E Hall] | (l1 & e & l2 & -> & E & He & Hd & H1 & H2)].
        -- right. exists [], a, rest.
           split; [reflexivity |]. split; [exact E |].
           split; [exact Ha |]. split; [exact Hlt |].
           split; [intros e' [] | exact Hall].
        -- right. exists (a :: l1), e, l2.
           split; [reflexivity |]. split; [exact E |].
           split; [exact He |]. split; [lra |].
           split; [| exact H2].
           intros e' [<- | Hin] He'; [exact Hd | auto].
      * rewrite (Rltb_false _ _ Hge).
        destruct (IH c m)
          as [[E Hall] | (l1 & e & l2 & -> & E & He & Hd & H1 & H2)].
        -- left. split; [exact E |].
           intros e [<- | Hin] He; [lra | auto].
        -- right. exists (a :: l1), e, l2.
           split; [reflexivity |]. split; [exact E |].
           split; [exact He |]. split; [exact Hd |].
           split; [| exact H2].
           intros e' [<- | Hin] He'; [lra | auto].
    + rewrite (scan_skip _ _ _ _ _ _ Ha).
      destruct (IH c m)
        as [[E Hall] | (l1 & e & l2 & -> & E & He & Hd & H1 & H2)].
      * left. split; [exact E |].
        intros e [<- | Hin] He; [contradiction | auto].
      * right. exists (a :: l1), e, l2.
        split; [reflexivity |]. split; [exact E |].
        split; [exact He |]. split; [exact Hd |].
        split; [| exact H2].
        intros e' [<- | Hin] He'; [contradiction | auto].
Qed.

End GrabScan.

(** ** grab-control: what [grab] and [release] do, case by case *)

Section GrabCases.
Import Js Three GrabControl GrabSpec.
Context {L : AmmoAPI}.

(** Enter [grab] past its two guards, before anything is simplified. *)
Ltac enter_grab Hh Ho HA :=
  unfold exec, grab, bind, get; cbv beta iota;
  rewrite Hh, Ho; cbv beta iota;
  unfold modify at 1; cbv beta iota;
  rewrite HA; simpl negb; cbv beta iota;
  unfold new_native, modify, destroy, emit, setActivationState, addConstraint;
  simpl.

Ltac run_handler :=
  unfold exec, onButtonDown, onButtonUp, grab, release, bind, get,
    modify, ret, throw, addConstraint, removeConstraint, new_native, destroy,
    setActivationState, emit;
  simpl.

(** A missing body handle: [grab] returns at its first guard. *)
Lemma grab_no_body (target : Entity) (s : State) :
  body (el s) = None \/ body target = None ->
  grab target s = (Normal tt, s).
Proof.
  intros H. run_handler.
  destruct (body (el s)); [| reflexivity].
  destruct (body target); [| reflexivity].
  destruct H; discriminate.
Qed.

(** A missing library: [grab] returns at its second guard, after it has
    recorded the target. *)
Lemma grab_no_Ammo (target : Entity) (s : State) (hb ob : Body) :
  body (el s) = Some hb -> body target = Some ob -> window_Ammo s = false ->
  grab target s = (Normal tt, set_grabbedObject (Some target) s).
Proof.
  intros Hh Ho HA. run_handler. rewrite Hh, Ho. simpl. rewrite HA.
  reflexivity.
Qed.

(** A missing physics system: [grab] throws where it reads the driver. *)
Lemma grab_no_physics (target : Entity) (s : State) (hb ob : Body) :
  body (el s) = Some hb -> body target = Some ob -> window_Ammo s = true ->
  physicsWorld s = None ->
  fst (grab target s) = Throw TypeError /\
  constraint (exec (grab target) s) = Some (welded hb ob (4 + next_handle s)) /\
  grabbedObject (exec (grab target) s) = Some target /\
  physicsWorld (exec (grab target) s) = None /\
  next_handle (exec (grab target) s) = (7 + next_handle s)%nat /\
  emitted (exec (grab target) s) = emitted s.
Proof.
  intros Hh Ho HA Hw. enter_grab Hh Ho HA.
  rewrite Hw. simpl. repeat split; assumption.
Qed.

(** Everything in place: [grab] runs to its end. *)
Lemma grab_success (target : Entity) (s : State) (hb ob : Body)
  (w : list (Constraint * bool)) :
  body (el s) = Some hb -> body target = Some ob -> window_Ammo s = true ->
  physicsWorld s = Some w ->
  fst (grab target s) = Normal tt /\
  constraint (exec (grab target) s) = Some (welded hb ob (4 + next_handle s)) /\
  grabbedObject (exec (grab target) s) = Some target /\
  physicsWorld (exec (grab target) s) =
    Some (w ++ [(welded hb ob (4 + next_handle s), true)]) /\
  next_handle (exec (grab target) s) = (7 + next_handle s)%nat /\
  emitted (exec (grab target) s) = emitted s ++ [(el_id target, "grab-start"%string)] /\
  activationState (exec (grab target) s) =
    write_activation (body_id ob) 4 (activationState s).
Proof.
  intros Hh Ho HA Hw. enter_grab Hh Ho HA.
  rewrite Hw. simpl. repeat split.
Qed.

(** An activation while an entity is held is ignored. *)
Lemma onButtonDown_held (s : State) :
  grabbedObject s <> None -> onButtonDown s = (Normal tt, s).
Proof.
  intros H. run_handler. destruct (grabbedObject s); [reflexivity | congruence].
Qed.

(** With nothing held, an activation is the scan followed by [grab]. *)
Lemma onButtonDown_idle (s : State) :
  grabbedObject s = None ->
  onButtonDown s =
    match closestEl (el s) (scene s) with
    | Some c => grab c s
    | None => (Normal tt, s)
    end.
Proof.
  intros H. unfold onButtonDown, bind, get. simpl. rewrite H.
  destruct (closestEl (el s) (scene s)); reflexivity.
Qed.

(** No constraint: [release] does nothing. *)
Lemma release_no_constraint (s : State) :
  constraint s = None -> release s = (Normal tt, s).
Proof. intros H. run_handler. rewrite H. reflexivity. Qed.

(** A constraint and no global [ammo]: [release] takes the constraint out
    of the world and throws at [ammo.destroy]. *)
Lemma release_no_ammo (s : State) (c : Constraint) (w : list (Constraint * bool)) :
  constraint s = Some c -> physicsWorld s = Some w -> global_ammo s = false ->
  release s =
    (Throw ReferenceError,
     set_physicsWorld
       (Some (List.filter (fun p => negb (Nat.eqb (handle (fst p)) (handle c))) w)) s).
Proof.
  intros Hc Hw Hg. run_handler. rewrite Hc. simpl. rewrite Hw. simpl.
  rewrite Hg. reflexivity.
Qed.

(** A release without a physics system throws at its first statement. *)
Lemma release_no_physics (s : State) (c : Constraint) :
  constraint s = Some c -> physicsWorld s = None ->
  release s = (Throw TypeError, s).
Proof.
  intros Hc Hw. run_handler. rewrite Hc. simpl. rewrite Hw. reflexivity.
Qed.

(** What [release] leaves of the physics world and of the component when
    it gets past [ammo.destroy]. *)
Lemma release_with_ammo (s : State) (c : Constraint) (w : list (Constraint * bool)) :
  constraint s = Some c -> physicsWorld s = Some w -> global_ammo s = true ->
  physicsWorld (exec release s) =
    Some (List.filter (fun p => negb (Nat.eqb (handle (fst p)) (handle c))) w) /\
  constraint (exec release s) = None /\
  next_handle (exec release s) = next_handle s /\
  (grabbedObject (exec release s) = None \/
   grabbedObject (exec release s) = grabbedObject s).
Proof.
  intros Hc Hw Hg. run_handler. rewrite Hc. simpl. rewrite Hw. simpl.
  rewrite Hg. simpl.
  destruct (grabbedObject s) as [g |] eqn:Eg; simpl.
  - destruct (body g); simpl; rewrite ?Eg; auto.
  - rewrite Eg. auto.
Qed.

End GrabCases.

(** ** grab-control: the scan of [onButtonDown] *)

Section GrabSelection.
Import Js Three GrabControl GrabSpec GrabScan.
Context {L : AmmoAPI}.
Local Open Scope R_scope.

(** [grab] leaves [grabbedObject] alone or sets it to its argument. *)
Lemma grab_grabbedObject (target : Entity) (s : State) :
  grabbedObject (exec (grab target) s) = grabbedObject s \/
  grabbedObject (exec (grab target) s) = Some target.
Proof.
  destruct (body (el s)) as [hb |] eqn:Eh;
    [| left; unfold exec; rewrite grab_no_body by auto; reflexivity].
  destruct (body target) as [ob |] eqn:Eo;
    [| left; unfold exec; rewrite grab_no_body by auto; reflexivity].
  right. destruct (window_Ammo s) eqn:EA.
  - destruct (physicsWorld s) as [w |] eqn:Ew.
    + apply (grab_success target s hb ob w Eh Eo EA Ew).
    + apply (grab_no_physics target s hb ob Eh Eo EA Ew).
  - unfold exec. rewrite (grab_no_Ammo target s hb ob Eh Eo EA). reflexivity.
Qed.

(** The entity [onButtonDown] selects, when it selects one, is eligible
    and closer than the radius; nothing eligible is closer, and nothing
    eligible before it in the scan is as close. *)
Lemma closestEl_spec (self : Entity) (scene : list Entity) :
  match closestEl self scene with
  | Some e =>
      exists l1 l2,
        querySelectorAll_ammo_body scene = l1 ++ e :: l2 /\
        eligible self e /\ dist self e < interactionRadius /\
        (forall e', In e' l1 -> eligible self e' -> dist self e < dist self e') /\
        (forall e', In e' l2 -> eligible self e' -> dist self e <= dist self e')
  | None =>
      forall e, In e (querySelectorAll_ammo_body scene) ->
                eligible self e -> interactionRadius <= dist self e
  end.
Proof.
  unfold closestEl.
  destruct (scan_spec self (querySelectorAll_ammo_body scene) None interactionRadius)
    as [[E Hall] | (l1 & e & l2 & Hels & E & He & Hd & H1 & H2)].
  - rewrite E. exact Hall.
  - rewrite E. simpl. exists l1, l2. auto.
Qed.

(** With nothing held, [onButtonDown] ends up holding nothing or the
    entity its scan selected. *)
Lemma onButtonDown_holds_selected (s : State) :
  grabbedObject s = None ->
  grabbedObject (exec onButtonDown s) = None \/
  grabbedObject (exec onButtonDown s) = closestEl (el s) (scene s).
Proof.
  intros Hidle.
  unfold exec, onButtonDown, bind, get. simpl. rewrite Hidle.
  destruct (closestEl (el s) (scene s)) as [c |].
  - destruct (grab_grabbedObject c s) as [H | H]; unfold exec in H;
      rewrite H; [left; exact Hidle | right; reflexivity].
  - left. exact Hidle.
Qed.

(** C1 (as amended): for an activation with nothing held, the entity
    selected is never farther than the interaction radius 0.3; it is the
    candidate of least distance among those that are not the hand, are
    marked grabbable, have a mesh and are closer than 0.3, the first in scan
    order among those at that distance; when there is no such candidate
    nothing is selected; and the entity held afterwards, if any, is the
    selected one. *)
Theorem activation_selects_nearest_eligible (s : State) :
  grabbedObject s = None ->
  let self := el s in
  let sel := closestEl self (scene s) in
  (grabbedObject (exec onButtonDown s) = None \/
   grabbedObject (exec onButtonDown s) = sel) /\
  (forall e, interactionRadius < dist self e -> sel <> Some e) /\
  match sel with
  | Some e =>
      exists l1 l2,
        querySelectorAll_ammo_body (scene s) = l1 ++ e :: l2 /\
        eligible self e /\ dist self e < interactionRadius /\
        (forall e', In e' l1 -> eligible self e' -> dist self e < dist self e') /\
        (forall e', In e' l2 -> eligible self e' -> dist self e <= dist self e')
  | None =>
      forall e, In e (querySelectorAll_ammo_body (scene s)) ->
                eligible self e -> interactionRadius <= dist self e
  end.
Proof.
  intros Hidle self sel.
  pose proof (closestEl_spec self (scene s)) as Hsel. fold sel in Hsel.
  split; [| split; [| exact Hsel]].
  - exact (onButtonDown_holds_selected s Hidle).
  - intros e Hfar Heq. rewrite Heq in Hsel.
    destruct Hsel as (l1 & l2 & _ & _ & Hd & _). lra.
Qed.

(** C10: an entity with no mesh is never selected, however close it is;
    an activation never ends up holding it. *)
Theorem meshless_entity_never_selected (s : State) (e : Entity) :
  mesh e = None ->
  closestEl (el s) (scene s) <> Some e /\
  (grabbedObject s = None -> grabbedObject (exec onButtonDown s) <> Some e).
Proof.
  intros Hmesh.
  assert (Hsel : closestEl (el s) (scene s) <> Some e).
  { intros Heq. pose proof (closestEl_spec (el s) (scene s)) as H.
    rewrite Heq in H. destruct H as (l1 & l2 & _ & (_ & _ & Hm) & _).
    contradiction. }
  split; [exact Hsel |].
  intros Hidle Hheld.
  destruct (onButtonDown_holds_selected s Hidle) as [H | H];
    rewrite H in Hheld; [discriminate | contradiction].
Qed.

End GrabSelection.

(** ** grab-control on the concrete scene *)

Module GrabExamples.
Import Js Three GrabControl GrabSpec Scene.
Local Open Scope R_scope.

Lemma dist_ghost : dist hand ghost = 0.1.
Proof. unfold dist. simpl. apply distanceTo_x_axis. lra. Qed.

Lemma dist_cube : dist hand cube = 0.2.
Proof. unfold dist. simpl. apply distanceTo_x_axis. lra. Qed.

Lemma dist_rim : dist hand rim = 0.3.
Proof. unfold dist. simpl. apply distanceTo_x_axis. lra. Qed.

(** The scan passes over the ghost, which is nearer, and selects the cube. *)
Lemma closestEl_idle : closestEl hand [hand; ghost; cube] = Some cube.
Proof.
  unfold closestEl. cbn -[distanceTo Rltb interactionRadius].
  change (distanceTo (vec3 0 0 0) (vec3 0.2 0 0)) with (dist hand cube).
  rewrite dist_cube, Rltb_true; [reflexivity | unfold interactionRadius; lra].
Qed.

(** An entity at the radius itself is not selected. *)
Lemma closestEl_rim : closestEl hand [hand; rim] = None.
Proof.
  unfold closestEl. cbn -[distanceTo Rltb interactionRadius].
  change (distanceTo (vec3 0 0 0) (vec3 0.3 0 0)) with (dist hand rim).
  rewrite dist_rim, Rltb_false; [reflexivity | unfold interactionRadius; lra].
Qed.

(** C1, counterexample: the ghost is a candidate, it is not the hand, it is
    marked grabbable, it is within the radius and nearer than every other
    grabbable candidate; the scan selects the cube. *)
Lemma nearest_grabbable_not_selected :
  let scene := [hand; ghost; cube] in
  In ghost (querySelectorAll_ammo_body scene) /\
  grabbable_candidate hand ghost /\
  dist hand ghost <= interactionRadius /\
  (forall e, In e (querySelectorAll_ammo_body scene) ->
             grabbable_candidate hand e -> dist hand ghost <= dist hand e) /\
  closestEl hand scene = Some cube /\
  Some cube <> Some ghost.
Proof.
  cbn zeta. split; [simpl; auto |]. split; [split; reflexivity |].
  split; [rewrite dist_ghost; unfold interactionRadius; lra |].
  split; [| split; [exact closestEl_idle | discriminate]].
  simpl. intros e [<- | [<- | [<- | []]]] [Hself _].
  - discriminate.
  - lra.
  - rewrite dist_ghost, dist_cube. lra.
Qed.

Lemma activation_selects_nearest_eligible_witness :
  grabbedObject idle = None /\
  (grabbedObject (exec onButtonDown idle) = None \/
   grabbedObject (exec onButtonDown idle) = closestEl hand [hand; ghost; cube]).
Proof.
  split; [reflexivity |].
  exact (proj1 (activation_selects_nearest_eligible idle eq_refl)).
Defined.

Lemma meshless_entity_never_selected_witness :
  mesh ghost = None /\ closestEl hand [hand; ghost; cube] <> Some ghost.
Proof.
  split; [reflexivity |].
  exact (proj1 (meshless_entity_never_selected idle ghost eq_refl)).
Defined.

End GrabExamples.

(** ** grab-control: the constraint of a grab *)

Section GrabWeld.
Import Js Three GrabControl GrabSpec.
Context {L : AmmoAPI}.
Local Open Scope R_scope.

(** What the constraint of a [grab] that goes through is made of, with
    the methods of Ammo.js.  It links the hand body to the object body, it
    is in the physics world with collisions between the two disabled, and
    its limits are all zero.  Its frame in the object is the identity.  Its
    frame in the hand is the product of two transforms fresh from the
    constructor: [handWorldInv] and [objWorld] are still as they were
    constructed when [op_mul] reads the first of them, and no world
    transform takes part in the frame. *)
Lemma grab_constraint_frames (s : State) (target : Entity)
  (hb ob : Body) (w : list (Constraint * bool)) :
  AmmoContract L ->
  body (el s) = Some hb -> body target = Some ob ->
  window_Ammo s = true -> physicsWorld s = Some w ->
  exists c,
    constraint (exec (grab target) s) = Some c /\
    grabbedObject (exec (grab target) s) = Some target /\
    physicsWorld (exec (grab target) s) = Some (w ++ [(c, true)]) /\
    rbA c = hb /\ rbB c = ob /\
    frameInA c = compose btTransform_new btTransform_new /\
    frameInB c = identity /\
    linearLowerLimit c = Some (mk_btVector3 0 0 0) /\
    linearUpperLimit c = Some (mk_btVector3 0 0 0) /\
    angularLowerLimit c = Some (mk_btVector3 0 0 0) /\
    angularUpperLimit c = Some (mk_btVector3 0 0 0).
Proof.
  intros HL Hh Ho HA Hw.
  destruct (grab_success target s hb ob w Hh Ho HA Hw)
    as (_ & Hc & Hg & Hp & _).
  exists (welded hb ob (4 + next_handle s)).
  split; [exact Hc |]. split; [exact Hg |]. split; [exact Hp |].
  split; [reflexivity |]. split; [reflexivity |].
  split.
  { simpl. rewrite (op_mul_in_place L HL), (inverse_returns L HL).
    rewrite (getWorldTransform_returns L HL). reflexivity. }
  split; [simpl; apply (setIdentity_in_place L HL) |].
  repeat split.
Qed.

(** The frame does not depend on the entity that is grabbed. *)
Lemma grab_frame_any_target (s : State) (t1 t2 : Entity) (hb o1 o2 : Body)
  (w : list (Constraint * bool)) (c1 c2 : Constraint) :
  AmmoContract L ->
  body (el s) = Some hb -> body t1 = Some o1 -> body t2 = Some o2 ->
  window_Ammo s = true -> physicsWorld s = Some w ->
  constraint (exec (grab t1) s) = Some c1 ->
  constraint (exec (grab t2) s) = Some c2 ->
  frameInA c1 = frameInA c2.
Proof.
  intros HL Hh H1 H2 HA Hw E1 E2.
  destruct (grab_constraint_frames s t1 hb o1 w HL Hh H1 HA Hw)
    as (c & Hc & _ & _ & _ & _ & Hf & _).
  destruct (grab_constraint_frames s t2 hb o2 w HL Hh H2 HA Hw)
    as (c' & Hc' & _ & _ & _ & _ & Hf' & _).
  rewrite E1 in Hc. injection Hc as <-.
  rewrite E2 in Hc'. injection Hc' as <-.
  rewrite Hf, Hf'. reflexivity.
Qed.

End GrabWeld.

(** ** grab-control: one session, one constraint *)

Section GrabSessions.
Import Js Three GrabControl GrabSpec.
Context {L : AmmoAPI}.

Lemma filter_other_handles (h : nat) (w : list (Constraint * bool)) :
  Forall (other_handle h) w ->
  List.filter (fun p => negb (Nat.eqb (handle (fst p)) h)) w = w.
Proof.
  induction 1 as [| p w Hp _ IH]; simpl; [reflexivity |].
  unfold other_handle in Hp. apply Nat.eqb_neq in Hp. rewrite Hp. simpl.
  f_equal. exact IH.
Qed.

Lemma filter_own_handle (c : Constraint) (w : list (Constraint * bool)) :
  Forall (other_handle (handle c)) w ->
  List.filter (fun p => negb (Nat.eqb (handle (fst p)) (handle c)))
    (w ++ [(c, true)]) = w.
Proof.
  intros H. rewrite List.filter_app, (filter_other_handles _ _ H). simpl.
  rewrite Nat.eqb_refl. simpl. apply app_nil_r.
Qed.

(** What [removeConstraint] leaves of a world that satisfies the invariant. *)
Lemma removeConstraint_invariant (w0 w : list (Constraint * bool))
  (s : State) (c : Constraint) :
  session_invariant w0 s ->
  constraint s = Some c -> physicsWorld s = Some w ->
  List.filter (fun p => negb (Nat.eqb (handle (fst p)) (handle c))) w = w0.
Proof.
  intros (_ & Hc & Hw) Ec Ew.
  destruct (Hc c Ec) as [_ Hother].
  destruct Hw as [Hw | (c' & Hw & Ec' & _)].
  - unfold activeConstraints in Hw. rewrite Ew in Hw. subst w.
    apply filter_other_handles, Hother.
  - rewrite Ew in Hw. injection Hw as ->.
    rewrite Ec in Ec'. injection Ec' as <-.
    apply filter_own_handle, Hother.
Qed.

Lemma Forall_handles_below (w0 : list (Constraint * bool)) (n m : nat) :
  (n <= m)%nat ->
  Forall (fun p => (handle (fst p) < n)%nat) w0 ->
  Forall (fun p => (handle (fst p) < m)%nat) w0.
Proof.
  intros Hnm H. eapply List.Forall_impl; [| exact H].
  intros p Hp. simpl in Hp. lia.
Qed.

Lemma Forall_handles_other (w0 : list (Constraint * bool)) (n h : nat) :
  (n <= h)%nat ->
  Forall (fun p => (handle (fst p) < n)%nat) w0 ->
  Forall (other_handle h) w0.
Proof.
  intros Hnh H. eapply List.Forall_impl; [| exact H].
  intros p Hp. unfold other_handle. simpl in Hp. lia.
Qed.

(** [grab] keeps the invariant of a controller that holds nothing. *)
Lemma grab_invariant (w0 : list (Constraint * bool)) (target : Entity) (s : State) :
  grabbedObject s = None ->
  session_invariant w0 s -> session_invariant w0 (exec (grab target) s).
Proof.
  intros Hidle Hinv. pose proof Hinv as (Hfresh & Hc & Hw).
  assert (Hw0 : activeConstraints s = w0).
  { destruct Hw as [Hw | (c & _ & _ & Hg)]; [exact Hw | congruence]. }
  destruct (body (el s)) as [hb |] eqn:Eh;
    [| unfold exec; rewrite grab_no_body by auto; exact Hinv].
  destruct (body target) as [ob |] eqn:Eo;
    [| unfold exec; rewrite grab_no_body by auto; exact Hinv].
  destruct (window_Ammo s) eqn:EA.
  - destruct (physicsWorld s) as [w |] eqn:Ew.
    + destruct (grab_success target s hb ob w Eh Eo EA Ew)
        as (_ & Ec' & Eg' & Ep' & En' & _).
      unfold activeConstraints in Hw0. rewrite Ew in Hw0. subst w.
      split; [rewrite En'; apply (Forall_handles_below w0 (next_handle s)); [lia | exact Hfresh] |].
      split.
      * intros c E. rewrite Ec' in E. injection E as <-. simpl. rewrite En'.
        split; [lia |].
        apply (Forall_handles_other w0 (next_handle s)); [lia | exact Hfresh].
      * right. exists (welded hb ob (4 + next_handle s)).
        rewrite Eg'. repeat split; auto; discriminate.
    + destruct (grab_no_physics target s hb ob Eh Eo EA Ew)
        as (_ & Ec' & Eg' & Ep' & En' & _).
      split; [rewrite En'; apply (Forall_handles_below w0 (next_handle s)); [lia | exact Hfresh] |].
      split.
      * intros c E. rewrite Ec' in E. injection E as <-. simpl. rewrite En'.
        split; [lia |].
        apply (Forall_handles_other w0 (next_handle s)); [lia | exact Hfresh].
      * left. unfold activeConstraints in *. rewrite Ep'. rewrite Ew in Hw0.
        exact Hw0.
  - unfold exec. rewrite (grab_no_Ammo target s hb ob Eh Eo EA). simpl.
    split; [exact Hfresh |]. split; [exact Hc |]. left. exact Hw0.
Qed.

(** [release] keeps the invariant, however it ends. *)
Lemma release_invariant (w0 : list (Constraint * bool)) (s : State) :
  session_invariant w0 s -> session_invariant w0 (exec release s).
Proof.
  intros Hinv.
  destruct (constraint s) as [c |] eqn:Ec;
    [| unfold exec; rewrite release_no_constraint by assumption; exact Hinv].
  destruct (physicsWorld s) as [w |] eqn:Ew;
    [| unfold exec; rewrite (release_no_physics s c) by assumption; exact Hinv].
  assert (Hrm := removeConstraint_invariant w0 w s c Hinv Ec Ew).
  destruct Hinv as (Hfresh & Hc & _).
  destruct (global_ammo s) eqn:Eg.
  - destruct (release_with_ammo s c w Ec Ew Eg) as (Ep' & Ec' & En' & _).
    split; [rewrite En'; exact Hfresh |].
    split; [intros c0 E; congruence |].
    left. unfold activeConstraints. rewrite Ep', Hrm. reflexivity.
  - unfold exec. rewrite (release_no_ammo s c w Ec Ew Eg). simpl.
    rewrite Hrm.
    split; [exact Hfresh |]. split; [exact Hc |]. left. reflexivity.
Qed.

(** Every handler keeps the invariant. *)
Lemma handle_event_invariant (w0 : list (Constraint * bool)) (ev : Event) (s : State) :
  session_invariant w0 s -> session_invariant w0 (exec (handle_event ev) s).
Proof.
  intros Hinv. destruct ev; simpl.
  - destruct (grabbedObject s) as [g |] eqn:Eg.
    + unfold exec. rewrite onButtonDown_held by congruence. exact Hinv.
    + unfold exec. rewrite (onButtonDown_idle s Eg).
      destruct (closestEl (el s) (scene s)) as [c |]; [| exact Hinv].
      apply (grab_invariant w0 c s Eg Hinv).
  - unfold exec, onButtonUp, bind, get. simpl.
    destruct (grabbedObject s); [| exact Hinv].
    apply (release_invariant w0 s Hinv).
Qed.

Lemma run_invariant (w0 : list (Constraint * bool)) (evs : list Event) :
  forall s, session_invariant w0 s -> session_invariant w0 (run evs s).
Proof.
  induction evs as [| ev evs IH]; intros s Hinv; [exact Hinv |].
  simpl. apply IH, handle_event_invariant, Hinv.
Qed.

Lemma run_ButtonDown_held (n : nat) (s : State) :
  grabbedObject s <> None -> run (repeat ButtonDown n) s = s.
Proof.
  intros H. induction n as [| n IH]; [reflexivity |].
  change (run (repeat ButtonDown (S n)) s)
    with (run (repeat ButtonDown n) (exec onButtonDown s)).
  unfold exec. rewrite (onButtonDown_held s H). exact IH.
Qed.

(** C8: from a controller as [init] leaves it, in a physics world whose
    constraints have native handles that are already in use, every sequence
    of button events leaves the world with the constraints it had and at
    most one more, the one the controller refers to while it holds an
    entity; an activation while an entity is held returns at once and
    changes nothing, so any number of activations while holding leaves the
    state as it is; and when, after any sequence of events, the controller
    holds nothing and an activation finds a target and grabs it (both
    bodies, the library and the physics world are there), that activation
    and any number of activations after it leave the world with the
    constraints it had at the start and exactly one more, the constraint
    between the hand and the target that the controller refers to. *)
Theorem one_session_one_constraint (s : State) (evs : list Event) :
  Forall (fun p => (handle (fst p) < next_handle s)%nat) (activeConstraints s) ->
  (exists extra,
     activeConstraints (run evs (init s)) = activeConstraints s ++ extra /\
     (List.length extra <= 1)%nat /\
     forall c, In c extra ->
       constraint (run evs (init s)) = Some (fst c) /\
       grabbedObject (run evs (init s)) <> None) /\
  (forall s', grabbedObject s' <> None -> onButtonDown s' = (Normal tt, s')) /\
  (forall s' n, grabbedObject s' <> None -> run (repeat ButtonDown n) s' = s') /\
  (forall (target : Entity) (hb ob : Body) (n : nat),
     grabbedObject (run evs (init s)) = None ->
     closestEl (el (run evs (init s))) (scene (run evs (init s))) = Some target ->
     body (el (run evs (init s))) = Some hb -> body target = Some ob ->
     window_Ammo (run evs (init s)) = true ->
     physicsWorld (run evs (init s)) <> None ->
     exists c,
       rbA c = hb /\ rbB c = ob /\
       constraint (run (repeat ButtonDown (S n)) (run evs (init s))) = Some c /\
       grabbedObject (run (repeat ButtonDown (S n)) (run evs (init s)))
         = Some target /\
       physicsWorld (run (repeat ButtonDown (S n)) (run evs (init s)))
         = Some (activeConstraints s ++ [(c, true)])).
Proof.
  intros Hfresh.
  assert (Hinv : session_invariant (activeConstraints s) (init s)).
  { split; [exact Hfresh |].
    split; [intros c E; discriminate | left; reflexivity]. }
  pose proof (run_invariant _ evs (init s) Hinv) as Hrun.
  split; [| split; [exact onButtonDown_held |
            split; [intros s' n; apply run_ButtonDown_held |]]].
  - destruct Hrun as (_ & _ & [Hw | (c & Hw & Ec & Egr)]).
    + exists []. rewrite Hw, app_nil_r. split; [reflexivity |].
      split; [simpl; lia | intros c []].
    + exists [(c, true)]. unfold activeConstraints at 1. rewrite Hw.
      split; [reflexivity |]. split; [simpl; lia |].
      intros c' [<- | []]. simpl. auto.
  - intros target hb ob n Hidle Hsel Hh Ho HA Hworld.
    destruct (physicsWorld (run evs (init s))) as [w |] eqn:Ew; [| congruence].
    assert (Hw0 : w = activeConstraints s).
    { destruct Hrun as (_ & _ & [Hw | (c & _ & _ & Egr)]); [| congruence].
      unfold activeConstraints at 1 in Hw. rewrite Ew in Hw. exact Hw. }
    subst w.
    destruct (grab_success target (run evs (init s)) hb ob _ Hh Ho HA Ew)
      as (_ & Ec & Eg & Ep & _).
    assert (Estep : run (repeat ButtonDown (S n)) (run evs (init s))
                    = exec (grab target) (run evs (init s))).
    { change (run (repeat ButtonDown (S n)) (run evs (init s)))
        with (run (repeat ButtonDown n) (exec onButtonDown (run evs (init s)))).
      unfold exec at 1. rewrite (onButtonDown_idle _ Hidle), Hsel.
      change (snd (grab target (run evs (init s))))
        with (exec (grab target) (run evs (init s))).
      apply run_ButtonDown_held. rewrite Eg. discriminate. }
    rewrite Estep.
    exists (welded hb ob (4 + next_handle (run evs (init s)))).
    split; [reflexivity |]. split; [reflexivity |].
    split; [exact Ec |]. split; [exact Eg | exact Ep].
Qed.

End GrabSessions.

(** ** grab-control: runs on the concrete scene *)

Module GrabRuns.
Import Js Three GrabControl GrabSpec Scene GrabExamples.
Local Open Scope R_scope.

Lemma line_ammo_contract : AmmoContract line_ammo.
Proof. constructor; reflexivity. Qed.

(** The grab of the cube from the idle state goes through: one constraint
    in the world, one native object left alive, one event. *)
Lemma holding_state :
  fst (grab cube idle) = Normal tt /\
  grabbedObject holding = Some cube /\
  constraint holding = Some (welded {| body_id := 1 |} {| body_id := 3 |} 4) /\
  activeConstraints holding =
    [(welded {| body_id := 1 |} {| body_id := 3 |} 4, true)] /\
  live holding = [4%nat] /\
  emitted holding = [(2%nat, "grab-start"%string)] /\
  activationState holding !! 3%nat = Some 4%Z.
Proof. repeat split. Qed.

(** The activation of the idle controller selects the cube and grabs it. *)
Lemma activation_grabs_cube : exec onButtonDown idle = holding.
Proof.
  unfold holding, exec. rewrite onButtonDown_idle by reflexivity.
  change (closestEl (el idle) (scene idle))
    with (closestEl hand [hand; ghost; cube]).
  rewrite closestEl_idle. reflexivity.
Qed.

(** C5, at the failing input: the hand, whose body stands at 1, grabs the
    cube, whose body stands at 3, with the methods of Ammo.js.  The cube
    in the frame of the hand is the translation by 2.  The constraint that
    [grab] creates links the two bodies and has all its limits at zero,
    but its frame in the hand is the product of two transforms fresh from
    the constructor, here the zero map, not the translation by 2: the
    calls [getWorldTransform(handWorldInv)], [handWorldInv.inverse()] and
    [getWorldTransform(objWorld)] write nothing into the transforms that
    [op_mul] then reads.  Grabbing the body at the rim, which stands at 4,
    gives the same frame. *)
Theorem grab_frame_is_not_the_offset :
  AmmoContract line_ammo /\
  fst (grab cube idle) = Normal tt /\
  worldTransform (AmmoAPI := line_ammo) {| body_id := 1 |} = (1%Z, 1%Z) /\
  worldTransform (AmmoAPI := line_ammo) {| body_id := 3 |} = (1%Z, 3%Z) /\
  compose (AmmoAPI := line_ammo) (inv (worldTransform (AmmoAPI := line_ammo) {| body_id := 1 |}))
          (worldTransform (AmmoAPI := line_ammo) {| body_id := 3 |}) = (1%Z, 2%Z) /\
  (exists c,
     constraint holding = Some c /\
     activeConstraints holding = [(c, true)] /\
     rbA c = {| body_id := 1 |} /\ rbB c = {| body_id := 3 |} /\
     frameInA c = (0%Z, 0%Z) /\
     frameInA c <> compose (AmmoAPI := line_ammo) (inv (worldTransform (AmmoAPI := line_ammo) {| body_id := 1 |}))
                           (worldTransform (AmmoAPI := line_ammo) {| body_id := 3 |}) /\
     frameInB c = (1%Z, 0%Z) /\
     linearLowerLimit c = Some (mk_btVector3 0 0 0) /\
     linearUpperLimit c = Some (mk_btVector3 0 0 0) /\
     angularLowerLimit c = Some (mk_btVector3 0 0 0) /\
     angularUpperLimit c = Some (mk_btVector3 0 0 0)) /\
  (exists c',
     constraint (exec (grab rim) idle) = Some c' /\
     rbB c' = {| body_id := 4 |} /\
     frameInA c' = (0%Z, 0%Z)).
Proof.
  split; [exact line_ammo_contract |].
  split; [reflexivity |].
  split; [reflexivity |]. split; [reflexivity |]. split; [reflexivity |].
  split.
  - destruct (grab_constraint_frames idle cube {| body_id := 1 |}
                {| body_id := 3 |} [] line_ammo_contract
                eq_refl eq_refl eq_refl eq_refl)
      as (c & Hc & _ & Hp & Ha & Hb & HA & HB & Hl).
    exists c. split; [exact Hc |].
    split; [unfold activeConstraints, holding; rewrite Hp; reflexivity |].
    split; [exact Ha |]. split; [exact Hb |].
    split; [rewrite HA; reflexivity |].
    split; [rewrite HA; discriminate |].
    split; [exact HB | exact Hl].
  - destruct (grab_constraint_frames idle rim {| body_id := 1 |}
                {| body_id := 4 |} [] line_ammo_contract
                eq_refl eq_refl eq_refl eq_refl)
      as (c & Hc & _ & _ & _ & Hb & HA & _).
    exists c. split; [exact Hc |]. split; [exact Hb |].
    rewrite HA. reflexivity.
Qed.

Lemma one_session_one_constraint_witness :
  Forall (fun p => (handle (fst p) < next_handle idle)%nat) (activeConstraints idle) /\
  (exists extra,
     activeConstraints (run [ButtonDown; ButtonDown; ButtonUp; ButtonDown] (init idle))
       = activeConstraints idle ++ extra /\
     (List.length extra <= 1)%nat) /\
  (exists c,
     rbA c = {| body_id := 1 |} /\ rbB c = {| body_id := 3 |} /\
     constraint (run [ButtonDown; ButtonDown; ButtonDown] (run [] (init idle)))
       = Some c /\
     grabbedObject (run [ButtonDown; ButtonDown; ButtonDown] (run [] (init idle)))
       = Some cube /\
     physicsWorld (run [ButtonDown; ButtonDown; ButtonDown] (run [] (init idle)))
       = Some (activeConstraints idle ++ [(c, true)])).
Proof.
  split; [constructor |].
  split.
  - destruct (proj1 (one_session_one_constraint idle
                       [ButtonDown; ButtonDown; ButtonUp; ButtonDown]
                       (List.Forall_nil _)))
      as (extra & H1 & H2 & _).
    exists extra. split; [exact H1 | exact H2].
  - assert (Hworld : physicsWorld (run [] (init idle)) <> None) by discriminate.
    exact (proj2 (proj2 (proj2 (one_session_one_constraint idle []
                                  (List.Forall_nil _))))
             cube {| body_id := 1 |} {| body_id := 3 |} 2%nat
             eq_refl closestEl_idle eq_refl eq_refl eq_refl Hworld).
Defined.

(** C9, at the failing inputs.  On a page where [window.Ammo] is not set,
    an activation next to the cube returns normally with the cube recorded
    as the grabbed object, no constraint and no event; every later
    activation and release leaves that state as it is.  In a scene with no
    physics system, the activation throws with both the grabbed object and
    the constraint set. *)
Theorem grab_failure_leaves_session_open :
  onButtonDown idle_no_Ammo =
    (Normal tt, set_grabbedObject (Some cube) idle_no_Ammo) /\
  grabbedObject (exec onButtonDown idle_no_Ammo) = Some cube /\
  constraint (exec onButtonDown idle_no_Ammo) = None /\
  emitted (exec onButtonDown idle_no_Ammo) = [] /\
  (forall ev, exec (handle_event ev) (exec onButtonDown idle_no_Ammo)
              = exec onButtonDown idle_no_Ammo) /\
  fst (onButtonDown idle_no_physics) = Throw TypeError /\
  grabbedObject (exec onButtonDown idle_no_physics) = Some cube /\
  constraint (exec onButtonDown idle_no_physics)
    = Some (welded {| body_id := 1 |} {| body_id := 3 |} 4) /\
  emitted (exec onButtonDown idle_no_physics) = [].
Proof.
  assert (E1 : onButtonDown idle_no_Ammo =
               (Normal tt, set_grabbedObject (Some cube) idle_no_Ammo)).
  { rewrite onButtonDown_idle by reflexivity.
    change (closestEl (el idle_no_Ammo) (scene idle_no_Ammo))
      with (closestEl hand [hand; ghost; cube]).
    rewrite closestEl_idle. reflexivity. }
  assert (E2 : onButtonDown idle_no_physics = grab cube idle_no_physics).
  { rewrite onButtonDown_idle by reflexivity.
    change (closestEl (el idle_no_physics) (scene idle_no_physics))
      with (closestEl hand [hand; ghost; cube]).
    rewrite closestEl_idle. reflexivity. }
  unfold exec. rewrite E1, E2. simpl.
  repeat split. intros []; reflexivity.
Qed.

(** C3, at the failing inputs.  While the cube is held, with no global
    named [ammo] (the component binds the library to a constant local to
    [grab]), the release takes the constraint out of the physics world and
    throws a ReferenceError: the constraint and the grabbed object stay
    set, no [grab-end] is emitted, the body keeps its activation state.
    And in the state a grab without the library leaves (an entity recorded,
    no constraint), the release returns without clearing the entity. *)
Theorem release_leaves_session_set :
  fst (release holding) = Throw ReferenceError /\
  fst (onButtonUp holding) = Throw ReferenceError /\
  constraint (exec onButtonUp holding) = constraint holding /\
  constraint holding <> None /\
  grabbedObject (exec onButtonUp holding) = Some cube /\
  activeConstraints (exec onButtonUp holding) = [] /\
  emitted (exec onButtonUp holding) = [(2%nat, "grab-start"%string)] /\
  activationState (exec onButtonUp holding) !! 3%nat = Some 4%Z /\
  onButtonUp (set_grabbedObject (Some cube) idle_no_Ammo)
    = (Normal tt, set_grabbedObject (Some cube) idle_no_Ammo).
Proof.
  split; [lazy; reflexivity |].
  split; [lazy; reflexivity |]. split; [lazy; reflexivity |].
  split; [lazy; discriminate |].
  repeat (split; [lazy; reflexivity |]).
  lazy. reflexivity.
Qed.

End GrabRuns.

(** ** teleport-arc: [doTeleport] *)

Module Teleport.
Import Js Three TeleportArc TeleportSpec.
Local Open Scope R_scope.

(** [showArc] while aiming changes nothing, and it never touches the
    landing hit. *)
Lemma showArc_again (s : State) :
  showArc (showArc s) = showArc s /\ hitPoint (showArc s) = hitPoint s.
Proof. split; reflexivity. Qed.

(** Not aiming: [doTeleport] does nothing. *)
Lemma doTeleport_hidden (s : State) :
  visible s = false -> doTeleport s = (Normal tt, s).
Proof. intros H. unfold doTeleport, bind, get. rewrite H. reflexivity. Qed.

(** No landing hit or no rig: no movement, and the arc is hidden. *)
Lemma doTeleport_no_target (s : State) :
  visible s = true -> hitPoint s = None \/ cameraRig s = None ->
  doTeleport s = (Normal tt, hideArc s).
Proof.
  intros Hv H. unfold doTeleport, bind, get. rewrite Hv. simpl.
  destruct (hitPoint s); [| reflexivity].
  destruct (cameraRig s); [| reflexivity].
  destruct H; discriminate.
Qed.

(** No camera: [doTeleport] returns before it hides the arc. *)
Lemma doTeleport_no_camera (s : State) (hit : Vector3) (r : Rig) :
  visible s = true -> hitPoint s = Some hit -> cameraRig s = Some r ->
  camera s = None ->
  doTeleport s = (Normal tt, s).
Proof.
  intros Hv Hh Hr Hc. unfold doTeleport, bind, get. rewrite Hv, Hh, Hr, Hc.
  reflexivity.
Qed.

(** With a hit, a rig and a camera, on the direct path: the rig gets its
    new position and the arc is hidden. *)
Lemma doTeleport_assigns (s : State) (hit : Vector3) (r : Rig) (cam : Camera) :
  visible s = true -> hitPoint s = Some hit -> cameraRig s = Some r ->
  camera s = Some cam -> assigns_directly s r ->
  doTeleport s =
    (Normal tt,
     hideArc (set_cameraRig (Some (set_position (landing_position hit cam r) r)) s)).
Proof.
  intros Hv Hh Hr Hc Hd. unfold doTeleport, bind, get.
  rewrite Hv, Hh, Hr, Hc. simpl.
  destruct Hd as [Hd | [Hd | (b & e & Hb & Hd)]].
  - rewrite Hd. reflexivity.
  - rewrite Hd. destruct (ammo_body r); reflexivity.
  - rewrite Hb. destruct (ammo_body r); [| reflexivity].
    unfold try_catch. destruct (try_setWorldTransform b s) as [[[] | e'] s'] eqn:E;
      simpl in Hd; [discriminate |].
    assert (s' = s) as ->.
    { revert E.
      unfold try_setWorldTransform, new_CANNON_Transform, bind, get, throw,
        ret, modify.
      destruct (setWorldTransform b) as [[] |]; simpl;
        destruct (CANNON s) as [| | []]; simpl; congruence. }
    reflexivity.
Qed.

(** The physics branch when the update of the body does not throw: the
    rig stays where it is, and the arc is hidden. *)
Lemma doTeleport_physics_update_returns (s : State) (hit : Vector3) (r : Rig)
  (cam : Camera) (b : RigBody) :
  visible s = true -> hitPoint s = Some hit -> cameraRig s = Some r ->
  camera s = Some cam ->
  ammo_body r = true -> rig_body r = Some b ->
  fst (try_setWorldTransform b s) = Normal tt ->
  cameraRig (exec doTeleport s) = Some r /\
  visible (exec doTeleport s) = false.
Proof.
  intros Hv Hh Hr Hc Ha Hb Hn. unfold exec, doTeleport, bind, get.
  rewrite Hv, Hh, Hr, Hc. simpl. rewrite Ha, Hb. unfold try_catch.
  destruct (try_setWorldTransform b s) as [[[] | e'] s'] eqn:E;
    simpl in Hn; [| discriminate].
  simpl. split; [| reflexivity].
  revert E. unfold try_setWorldTransform, new_CANNON_Transform, bind, get, throw,
    ret, modify.
  destruct (setWorldTransform b) as [[] |]; simpl;
    destruct (CANNON s) as [| | []]; simpl; intros E;
    inversion E; subst; simpl; exact Hr.
Qed.

(** On the direct path the rig's world position becomes the hit point
    minus the offset of the camera from the rig; a camera that rides on
    the rig then stands at the hit point, at its old offset from the rig. *)
Lemma doTeleport_world_position (s : State) (hit : Vector3) (r : Rig) (cam : Camera) :
  visible s = true -> hitPoint s = Some hit -> cameraRig s = Some r ->
  camera s = Some cam -> assigns_directly s r ->
  (forall f v, parent (object3D r) = Some f -> localToWorld f (worldToLocal f v) = v) ->
  let offset := sub (camera_worldPosition cam (object3D r))
                    (getWorldPosition (object3D r)) in
  exists r',
    cameraRig (exec doTeleport s) = Some r' /\
    parent (object3D r') = parent (object3D r) /\
    getWorldPosition (object3D r') = sub hit offset /\
    ((forall o, parent o = parent (object3D r) ->
        sub (camera_worldPosition cam o) (getWorldPosition o) = offset) ->
     sub (camera_worldPosition cam (object3D r')) (getWorldPosition (object3D r')) = offset /\
     camera_worldPosition cam (object3D r') = hit).
Proof.
  intros Hv Hh Hr Hc Hd Hframe offset.
  unfold exec. rewrite (doTeleport_assigns s hit r cam Hv Hh Hr Hc Hd). simpl.
  eexists. split; [reflexivity |]. split; [reflexivity |].
  assert (Hw : getWorldPosition (object3D (set_position (landing_position hit cam r) r))
               = sub hit offset).
  { unfold getWorldPosition, landing_position. simpl. fold offset.
    destruct (parent (object3D r)) as [f |] eqn:Ef; [apply (Hframe f); reflexivity | reflexivity]. }
  split; [exact Hw |].
  intros Hride.
  pose proof (Hride (object3D (set_position (landing_position hit cam r) r)) eq_refl) as H.
  split; [exact H |].
  rewrite Hw in H. exact (sub_sub_cancel _ _ _ H).
Qed.

(** When the update of the physics body cannot go through, the rig moves
    by the direct assignment: at once when it is not physics-driven or has
    no body, in the [catch] otherwise. *)
Lemma physics_update_fails_assigns (s : State) (r : Rig) :
  physics_update_fails s r -> assigns_directly s r.
Proof.
  intros H. unfold assigns_directly.
  destruct (ammo_body r) eqn:Ea; [| left; reflexivity].
  destruct (rig_body r) as [b |] eqn:Eb; [| right; left; reflexivity].
  right. right. destruct (H Ea b Eb) as [Hm Hc].
  assert (exists e, fst (try_setWorldTransform b s) = Throw e) as [e He].
  { unfold try_setWorldTransform, new_CANNON_Transform, bind, get, throw.
    destruct (setWorldTransform b) as [t |]; [| congruence].
    destruct (CANNON s) as [| | []]; simpl.
    - exists ReferenceError. reflexivity.
    - exists TypeError. reflexivity.
    - congruence.
    - exists TypeError. reflexivity. }
  exists b, e. split; [reflexivity | exact He].
Qed.

(** C2: a teleport with a landing hit, a rig and a camera, where the
    update of the physics body of a physics-driven rig cannot go through.
    [doTeleport] returns normally; with [offset] the camera's world
    position minus the rig's world position before the move, the rig keeps
    its parent and its position becomes the hit point minus [offset],
    converted into the local space of the parent when there is one.  When
    the frame of the parent is invertible the rig's world position is then
    the hit point minus [offset]; and for a camera that rides on the rig
    (its offset from the rig does not depend on where the rig is) the
    camera's world position minus the rig's is [offset] after the teleport
    as before. *)
Theorem teleport_preserves_camera_offset (s : State) (hit : Vector3) (r : Rig)
  (cam : Camera) :
  visible s = true -> hitPoint s = Some hit -> cameraRig s = Some r ->
  camera s = Some cam -> physics_update_fails s r ->
  let offset := sub (camera_worldPosition cam (object3D r))
                    (getWorldPosition (object3D r)) in
  exists r',
    fst (doTeleport s) = Normal tt /\
    cameraRig (exec doTeleport s) = Some r' /\
    parent (object3D r') = parent (object3D r) /\
    position (object3D r') =
      match parent (object3D r) with
      | Some f => worldToLocal f (sub hit offset)
      | None => sub hit offset
      end /\
    ((forall f v, parent (object3D r) = Some f ->
                  localToWorld f (worldToLocal f v) = v) ->
     getWorldPosition (object3D r') = sub hit offset /\
     ((forall o, parent o = parent (object3D r) ->
         sub (camera_worldPosition cam o) (getWorldPosition o) = offset) ->
      sub (camera_worldPosition cam (object3D r')) (getWorldPosition (object3D r'))
      = offset)).
Proof.
  intros Hv Hh Hr Hc Hf offset.
  pose proof (physics_update_fails_assigns s r Hf) as Hd.
  exists (set_position (landing_position hit cam r) r).
  unfold exec. rewrite (doTeleport_assigns s hit r cam Hv Hh Hr Hc Hd).
  split; [reflexivity |]. split; [reflexivity |]. split; [reflexivity |].
  split; [reflexivity |].
  intros Hframe.
  assert (Hw : getWorldPosition (object3D (set_position (landing_position hit cam r) r))
               = sub hit offset).
  { unfold getWorldPosition, landing_position. simpl. fold offset.
    destruct (parent (object3D r)) as [f |] eqn:Ef;
      [apply (Hframe f); reflexivity | reflexivity]. }
  split; [exact Hw |].
  intros Hride.
  exact (Hride (object3D (set_position (landing_position hit cam r) r)) eq_refl).
Qed.

End Teleport.

(** ** teleport-arc: the loop of [tick] *)

Section ArcLoop.
Import Three TeleportArc TeleportSpec.
Variable cls : string.
Variable cast : Ray -> list Intersection.
Variables worldPos v0 g : Vector3.
Local Open Scope nat_scope.

Local Abbreviation P := (pos_at worldPos v0 g).
Local Abbreviation loop := (arcLoop cls cast worldPos v0 g).
Local Abbreviation prev := (prev_of worldPos v0 g).
Local Abbreviation lands_at := (lands_at cls cast worldPos v0 g).
Local Abbreviation seg_rays := (seg_rays worldPos v0 g).
Local Abbreviation rays_from := (rays_from worldPos v0 g).

Lemma write_sample_length (i : nat) (pos : Vector3) (buf : list R) :
  List.length (write_sample i pos buf) = List.length buf.
Proof. unfold write_sample. rewrite !length_insert. reflexivity. Qed.

Lemma write_sample_lookup (i : nat) (pos : Vector3) (buf : list R) :
  i * 3 + 2 < List.length buf ->
  write_sample i pos buf !! (i * 3) = Some (x pos) /\
  write_sample i pos buf !! (i * 3 + 1) = Some (y pos) /\
  write_sample i pos buf !! (i * 3 + 2) = Some (z pos).
Proof.
  intros H. unfold write_sample. repeat split.
  - rewrite !list_lookup_insert_ne by lia.
    apply list_lookup_insert_eq. lia.
  - rewrite list_lookup_insert_ne by lia.
    apply list_lookup_insert_eq. rewrite length_insert. lia.
  - apply list_lookup_insert_eq. rewrite !length_insert. lia.
Qed.

Lemma write_sample_other (i : nat) (pos : Vector3) (buf : list R) (m : nat) :
  m < i * 3 \/ i * 3 + 2 < m ->
  write_sample i pos buf !! m = buf !! m.
Proof.
  intros H. unfold write_sample. rewrite !list_lookup_insert_ne by lia.
  reflexivity.
Qed.

(** An iteration that finds a landing hit ends the loop. *)
Lemma arcLoop_lands (n i : nat) (buf : list R) (rays : list Ray) :
  lands_at i = true ->
  exists r h,
    seg_rays i = [r] /\ first_landing cls (cast r) = Some h /\
    loop (S n) i (prev i) buf rays =
      (write_sample i (P i) buf, Some h, rays ++ [r]).
Proof.
  unfold TeleportSpec.lands_at, TeleportSpec.seg_rays. simpl.
  destruct (prev i) as [p |]; [| discriminate].
  destruct (segment_ray p (P i)) as [r |]; [| discriminate].
  destruct (first_landing cls (cast r)) as [h |] eqn:E; [| discriminate].
  intros _. exists r, h. rewrite E. auto.
Qed.

(** An iteration that finds none goes on to the next one. *)
Lemma arcLoop_goes_on (n i : nat) (buf : list R) (rays : list Ray) :
  lands_at i = false ->
  (forall r, In r (seg_rays i) -> first_landing cls (cast r) = None) /\
  loop (S n) i (prev i) buf rays =
    loop n (S i) (prev (S i)) (write_sample i (P i) buf) (rays ++ seg_rays i).
Proof.
  unfold TeleportSpec.lands_at, TeleportSpec.seg_rays. simpl.
  destruct (prev i) as [p |];
    [| intros _; rewrite app_nil_r; split; [intros r [] | reflexivity]].
  destruct (segment_ray p (P i)) as [r |];
    [| intros _; rewrite app_nil_r; split; [intros r [] | reflexivity]].
  destruct (first_landing cls (cast r)) as [h |] eqn:E; [discriminate |].
  intros _. split; [| reflexivity].
  intros r' [<- | []]. exact E.
Qed.

(** The position array after the loop: the samples of the iterations the
    loop reaches are written, everything else is as it was. *)
Lemma arcLoop_buffer (n : nat) : forall (i : nat) (buf : list R) (rays : list Ray),
  let buf' := fst (fst (loop n i (prev i) buf rays)) in
  List.length buf' = List.length buf /\
  (forall j, i <= j < i + n -> (forall k, i <= k < j -> lands_at k = false) ->
     j * 3 + 2 < List.length buf ->
     buf' !! (j * 3) = Some (x (P j)) /\
     buf' !! (j * 3 + 1) = Some (y (P j)) /\
     buf' !! (j * 3 + 2) = Some (z (P j))) /\
  (forall m, m < i * 3 -> buf' !! m = buf !! m) /\
  (forall j c, c < 3 ->
     i + n <= j \/ (exists k, i <= k < j /\ lands_at k = true) ->
     buf' !! (j * 3 + c) = buf !! (j * 3 + c)).
Proof.
  induction n as [| n IH]; intros i buf rays buf'.
  - subst buf'. simpl. split; [reflexivity |].
    split; [intros j Hj; lia |]. split; reflexivity.
  - destruct (lands_at i) eqn:El.
    + destruct (arcLoop_lands n i buf rays El) as (r & h & _ & _ & E).
      subst buf'. rewrite E. simpl.
      split; [apply write_sample_length |].
      split; [| split].
      * intros j Hj Hk Hlen.
        assert (j = i) as ->.
        { destruct (Nat.eq_dec j i) as [| Hne]; [assumption |].
          rewrite Hk in El by lia. discriminate. }
        apply write_sample_lookup, Hlen.
      * intros m Hm. apply write_sample_other. lia.
      * intros j c Hc [Hj | (k & Hk & _)]; apply write_sample_other; lia.
    + destruct (arcLoop_goes_on n i buf rays El) as [_ E].
      subst buf'. rewrite E.
      destruct (IH (S i) (write_sample i (P i) buf) (rays ++ seg_rays i))
        as (Hlen & Hw & Hlow & Hhigh).
      split; [rewrite Hlen; apply write_sample_length |].
      split; [| split].
      * intros j Hj Hk Hl.
        destruct (Nat.eq_dec j i) as [-> | Hne].
        -- rewrite !Hlow by lia. apply write_sample_lookup, Hl.
        -- apply Hw; [lia | intros k Hk'; apply Hk; lia |].
           rewrite write_sample_length. exact Hl.
      * intros m Hm. rewrite Hlow by lia. apply write_sample_other. lia.
      * intros j c Hc H.
        assert (Hj : i < j).
        { destruct H as [H | (k & H & _)]; lia. }
        rewrite Hhigh; [apply write_sample_other; lia | exact Hc |].
        destruct H as [H | (k & Hk & Hland)]; [left; lia |].
        right. exists k. split; [| exact Hland].
        destruct (Nat.eq_dec k i) as [-> | Hne]; [congruence | lia].
Qed.

(** The rays and the hit after the loop: the rays of the segments up to
    the first one that meets a landing surface, and the hit on that one. *)
Lemma arcLoop_rays (n : nat) : forall (i : nat) (buf : list R) (rays : list Ray),
  let res := loop n i (prev i) buf rays in
  (snd (fst res) = None /\ snd res = rays ++ rays_from n i /\
   forall r, In r (rays_from n i) -> first_landing cls (cast r) = None)
  \/
  (exists before r after h,
     rays_from n i = before ++ r :: after /\
     snd res = rays ++ before ++ [r] /\
     snd (fst res) = Some h /\
     first_landing cls (cast r) = Some h /\
     forall r', In r' before -> first_landing cls (cast r') = None).
Proof.
  induction n as [| n IH]; intros i buf rays res.
  - left. subst res. simpl. rewrite app_nil_r. split; [reflexivity |].
    split; [reflexivity | intros r []].
  - destruct (lands_at i) eqn:El.
    + destruct (arcLoop_lands n i buf rays El) as (r & h & Es & Eh & E).
      right. exists [], r, (rays_from n (S i)), h.
      subst res. rewrite E. simpl. rewrite Es.
      split; [reflexivity |]. split; [reflexivity |].
      split; [reflexivity |]. split; [exact Eh | intros r' []].
    + destruct (arcLoop_goes_on n i buf rays El) as [Hnone E].
      subst res. rewrite E.
      destruct (IH (S i) (write_sample i (P i) buf) (rays ++ seg_rays i))
        as [(Hh & Hr & Hall) | (before & r & after & h & Hs & Hr & Hh & Hl & Hb)].
      * left. split; [exact Hh |].
        change (rays_from (S n) i) with (seg_rays i ++ rays_from n (S i)).
        split; [rewrite Hr, <- app_assoc; reflexivity |].
        intros r Hin. apply in_app_or in Hin. destruct Hin; auto.
      * right. exists (seg_rays i ++ before), r, after, h.
        change (rays_from (S n) i) with (seg_rays i ++ rays_from n (S i)).
        split; [rewrite Hs, <- app_assoc; reflexivity |].
        split; [rewrite Hr, <- !app_assoc; reflexivity |].
        split; [exact Hh |]. split; [exact Hl |].
        intros r' Hin. apply in_app_or in Hin. destruct Hin; auto.
Qed.

End ArcLoop.

(** ** teleport-arc: the loop against the specification *)

Section ArcSpec.
Import Three TeleportArc TeleportSpec.
Local Open Scope R_scope.

(** The sample the loop computes is the closed form. *)
Lemma pos_at_trajectory (origin v0 g : Vector3) (i : nat) :
  pos_at origin v0 g i = trajectory origin v0 g i.
Proof.
  unfold pos_at, trajectory, addScaledVector, add, multiplyScalar, dt. simpl.
  f_equal; ring.
Qed.

Lemma first_landing_None (cls : string) (l : list Intersection) :
  first_landing cls l = None ->
  forall it, In it l -> isLanding cls it = false.
Proof.
  unfold first_landing. intros H it Hin.
  destruct (List.find (isLanding cls) l) eqn:E; [discriminate |].
  exact (List.find_none _ _ E it Hin).
Qed.

Lemma first_landing_Some (cls : string) (l : list Intersection) (h : Vector3) :
  first_landing cls l = Some h ->
  exists l1 it l2,
    l = l1 ++ it :: l2 /\
    (forall it', In it' l1 -> isLanding cls it' = false) /\
    isLanding cls it = true /\ h = point it.
Proof.
  unfold first_landing. induction l as [| a l IH]; simpl; [discriminate |].
  destruct (isLanding cls a) eqn:Ea.
  - simpl. intros [= <-]. exists [], a, l.
    split; [reflexivity |]. split; [intros it' [] | auto].
  - intros H. destruct (IH H) as (l1 & it & l2 & -> & Hl1 & Hit & Hh).
    exists (a :: l1), it, l2. split; [reflexivity |].
    split; [| auto]. intros it' [<- | Hin]; auto.
Qed.

(** A segment has a ray when its ends are apart, and the ray is the one
    from the earlier end towards the later end, as far as their distance. *)
Lemma segment_ray_pair_ray (p q : Vector3) :
  match segment_ray p q with
  | Some r => [r]
  | None => []
  end = List.map pair_ray (List.filter apart [(p, q)]).
Proof.
  unfold segment_ray, apart. simpl. rewrite length_sub.
  destruct (Rltb 0 (distanceTo p q)) eqn:E; [| reflexivity].
  simpl. unfold pair_ray. simpl. do 2 f_equal.
  unfold normalize. rewrite length_sub.
  destruct (Req_dec_T (distanceTo p q) 0) as [H0 | _]; [| reflexivity].
  apply Rltb_spec in E. lra.
Qed.

Lemma rays_from_succ (origin v0 g : Vector3) (n : nat) : forall i,
  rays_from origin v0 g n (S i) =
    List.map pair_ray
      (List.filter apart
         (List.map (fun k => (pos_at origin v0 g k, pos_at origin v0 g (S k)))
                   (seq i n))).
Proof.
  induction n as [| n IH]; intros i; [reflexivity |].
  change (rays_from origin v0 g (S n) (S i))
    with (seg_rays origin v0 g (S i) ++ rays_from origin v0 g n (S (S i))).
  rewrite IH. unfold seg_rays. simpl prev_of. cbv iota.
  rewrite segment_ray_pair_ray.
  change (seq i (S n)) with ([i] ++ seq (S i) n).
  rewrite List.map_app, List.filter_app, List.map_app. reflexivity.
Qed.

(** The rays of the whole loop are the rays of the consecutive pairs of
    samples that are apart. *)
Lemma rays_from_pairs (origin v0 g : Vector3) (n : nat) :
  rays_from origin v0 g n 0 =
    List.map pair_ray
      (List.filter apart (consecutive_pairs (trajectory origin v0 g) n)).
Proof.
  unfold consecutive_pairs.
  rewrite (List.map_ext _ (fun k => (pos_at origin v0 g k, pos_at origin v0 g (S k))))
    by (intros k; rewrite !pos_at_trajectory; reflexivity).
  destruct n as [| n]; [reflexivity |].
  change (rays_from origin v0 g (S n) 0)
    with (seg_rays origin v0 g 0 ++ rays_from origin v0 g n 1).
  rewrite rays_from_succ. simpl. rewrite Nat.sub_0_r. reflexivity.
Qed.

(** [tick] in terms of the loop. *)
Lemma arc_loop (s : State) :
  arc s =
    arcLoop (landingClass (data s)) (intersectObjects s)
      (el_worldPosition s) (launch s) (gravity (data s))
      (samples (data s)) 0
      (prev_of (el_worldPosition s) (launch s) (gravity (data s)) 0)
      (positions s) [].
Proof. unfold arc. rewrite vec3_eta. reflexivity. Qed.

Lemma tick_visible (s : State) :
  visible s = true ->
  positions (tick s) = fst (fst (arc s)) /\
  hitPoint (tick s) = snd (fst (arc s)) /\
  raysCast s = snd (arc s) /\
  visible (tick s) = true /\
  cursorMesh_visible (tick s) = false.
Proof.
  intros H. unfold tick, raysCast. rewrite H. simpl.
  destruct (arc s) as [[buf [h |]] rays]; simpl; auto.
Qed.

(** The rays of a frame and its landing hit. *)
Lemma tick_rays (s : State) :
  visible s = true ->
  (hitPoint (tick s) = None /\ raysCast s = segment_rays s /\
   forall r, In r (segment_rays s) -> no_landing s r)
  \/
  (exists before r after h,
     hitPoint (tick s) = Some h /\
     segment_rays s = before ++ r :: after /\
     raysCast s = before ++ [r] /\
     (forall r', In r' before -> no_landing s r') /\
     first_landing_at s r h).
Proof.
  intros Hv. destruct (tick_visible s Hv) as (_ & -> & -> & _).
  rewrite arc_loop. unfold segment_rays, sample.
  rewrite <- rays_from_pairs.
  destruct (arcLoop_rays (landingClass (data s)) (intersectObjects s)
              (el_worldPosition s) (launch s) (gravity (data s))
              (samples (data s)) 0 (positions s) [])
    as [(Hh & Hr & Hall) | (before & r & after & h & Hs & Hr & Hh & Hl & Hb)].
  - left. split; [exact Hh |]. split; [exact Hr |].
    intros r Hin. unfold no_landing. apply first_landing_None, Hall, Hin.
  - right. exists before, r, after, h.
    split; [exact Hh |]. split; [exact Hs |]. split; [exact Hr |].
    split; [intros r' Hin; unfold no_landing; apply first_landing_None, Hb, Hin |].
    apply first_landing_Some, Hl.
Qed.

(** The position array of a frame. *)
Lemma tick_positions (s : State) :
  visible s = true ->
  List.length (positions (tick s)) = List.length (positions s) /\
  (forall i, (i < samples (data s))%nat ->
     (forall k, (k < i)%nat -> lands s k = false) ->
     (i * 3 + 2 < List.length (positions s))%nat ->
     positions (tick s) !! (i * 3)%nat = Some (x (sample s i)) /\
     positions (tick s) !! (i * 3 + 1)%nat = Some (y (sample s i)) /\
     positions (tick s) !! (i * 3 + 2)%nat = Some (z (sample s i))) /\
  (forall j c, (c < 3)%nat ->
     (samples (data s) <= j)%nat \/ (exists k, (k < j)%nat /\ lands s k = true) ->
     positions (tick s) !! (j * 3 + c)%nat = positions s !! (j * 3 + c)%nat).
Proof.
  intros Hv. destruct (tick_visible s Hv) as (-> & _).
  rewrite arc_loop.
  destruct (arcLoop_buffer (landingClass (data s)) (intersectObjects s)
              (el_worldPosition s) (launch s) (gravity (data s))
              (samples (data s)) 0 (positions s) [])
    as (Hlen & Hw & _ & Hhigh).
  split; [exact Hlen |]. split.
  - intros i Hi Hk Hl. unfold sample. rewrite <- pos_at_trajectory.
    apply Hw; [lia | intros k Hk'; apply Hk; lia | exact Hl].
  - intros j c Hc H. apply Hhigh; [exact Hc |].
    destruct H as [H | (k & Hk & Hland)]; [left; lia |].
    right. exists k. split; [lia | exact Hland].
Qed.

End ArcSpec.

(** ** teleport-arc: the frame *)

Section Frames.
Import Three TeleportArc TeleportSpec.
Local Open Scope R_scope.

(** C6 (as amended): in a frame while aiming, for every sample index [i]
    below the sample count such that no iteration before [i] found a landing
    hit, the line's position array holds at [3i], [3i+1], [3i+2] the point
    [origin + v0·(i·dt) + 0.5·g·(i·dt)²], with [dt = 0.06], [origin] the
    controller's world position, [v0] its normalized forward direction
    scaled by the velocity, and [g] the gravity; the entries of every sample
    after an iteration that found a hit are those of the frame before. *)
Theorem samples_follow_trajectory_until_hit (s : State) (i : nat) :
  visible s = true ->
  List.length (positions s) = (samples (data s) * 3)%nat ->
  (i < samples (data s))%nat ->
  (forall k, (k < i)%nat -> lands s k = false) ->
  (positions (tick s) !! (i * 3)%nat = Some (x (sample s i)) /\
   positions (tick s) !! (i * 3 + 1)%nat = Some (y (sample s i)) /\
   positions (tick s) !! (i * 3 + 2)%nat = Some (z (sample s i))) /\
  (forall j c, (c < 3)%nat ->
     (exists k, (k < j)%nat /\ lands s k = true) ->
     positions (tick s) !! (j * 3 + c)%nat = positions s !! (j * 3 + c)%nat).
Proof.
  intros Hv Hlen Hi Hk.
  destruct (tick_positions s Hv) as (_ & Hw & Hstale).
  split.
  - apply Hw; [exact Hi | exact Hk | lia].
  - intros j c Hc H. apply Hstale; [exact Hc | right; exact H].
Qed.

(** C7 (as amended): in a frame while aiming, the rays cast are those of
    the consecutive pairs of samples that are apart, each from the earlier
    point towards the later one and as far as their distance, in order, up
    to the first ray with an intersection on a landing surface; the landing
    hit of the frame is the point of the first such intersection of that
    ray; when no ray has one, every such ray is cast and the landing hit is
    cleared.  Hiding the arc clears the landing hit. *)
Theorem tick_casts_rays_until_landing (s : State) :
  visible s = true ->
  match hitPoint (tick s) with
  | Some h =>
      exists before r after,
        segment_rays s = before ++ r :: after /\
        raysCast s = before ++ [r] /\
        (forall r', In r' before -> no_landing s r') /\
        first_landing_at s r h
  | None =>
      raysCast s = segment_rays s /\
      forall r, In r (segment_rays s) -> no_landing s r
  end /\
  hitPoint (hideArc s) = None.
Proof.
  intros Hv. split; [| reflexivity].
  destruct (tick_rays s Hv)
    as [(-> & Hr & Hall) | (before & r & after & h & -> & Hs & Hr & Hb & Hl)].
  - split; assumption.
  - exists before, r, after. auto.
Qed.

End Frames.

(** ** teleport-arc on the concrete aim *)

Module TeleportRuns.
Import Js Three TeleportArc TeleportSpec Teleport Aim.
Local Open Scope R_scope.

Lemma distanceTo_same (v : Vector3) : distanceTo v v = 0.
Proof.
  unfold distanceTo, distanceToSquared. simpl.
  replace ((x v - x v) * (x v - x v) + (y v - y v) * (y v - y v)
           + (z v - z v) * (z v - z v)) with 0 by ring.
  apply sqrt_0.
Qed.

Lemma distanceTo_pos_z (p q : Vector3) : z p <> z q -> 0 < distanceTo p q.
Proof.
  intros H. unfold distanceTo, distanceToSquared. simpl.
  apply sqrt_lt_R0.
  assert (0 < (z p - z q) * (z p - z q)) by nra.
  pose proof (Rle_0_sqr (x p - x q)) as Hx.
  pose proof (Rle_0_sqr (y p - y q)) as Hy.
  unfold Rsqr in Hx, Hy. lra.
Qed.

Lemma segment_ray_apart (p q : Vector3) :
  0 < distanceTo p q -> exists r, segment_ray p q = Some r.
Proof.
  intros H. unfold segment_ray. rewrite length_sub, (Rltb_true _ _ H).
  eexists. reflexivity.
Qed.

(** The forward direction of the aim is a unit vector already. *)
Lemma normalize_forward : normalize (vec3 0 0 (-1)) = vec3 0 0 (-1).
Proof.
  unfold normalize.
  assert (E : length (vec3 0 0 (-1)) = 1).
  { unfold length, lengthSq. simpl.
    replace (0 * 0 + 0 * 0 + -1 * -1) with 1 by ring. apply sqrt_1. }
  rewrite E. destruct (Req_dec_T 1 0) as [H | _]; [lra |].
  unfold divideScalar, multiplyScalar. simpl. f_equal; lra.
Qed.

Lemma launch_aiming : launch aiming = vec3 0 0 (-6).
Proof.
  unfold launch. simpl. rewrite normalize_forward.
  unfold multiplyScalar. simpl. f_equal; lra.
Qed.

(** The first segment of the aim meets the floor. *)
Lemma lands_aiming_1 : lands aiming 1 = true.
Proof.
  unfold lands, lands_at.
  change (prev_of (el_worldPosition aiming) (launch aiming) (gravity (data aiming)) 1)
    with (Some (pos_at (el_worldPosition aiming) (launch aiming) (gravity (data aiming)) 0)).
  cbv iota.
  destruct (segment_ray_apart
              (pos_at (el_worldPosition aiming) (launch aiming) (gravity (data aiming)) 0)
              (pos_at (el_worldPosition aiming) (launch aiming) (gravity (data aiming)) 1))
    as [r ->]; [| reflexivity].
  apply distanceTo_pos_z. rewrite launch_aiming. simpl. lra.
Qed.

(** The frame of the aim: the ray of the first segment is the only one
    cast, and its hit on the floor is the landing hit. *)
Lemma tick_aiming :
  hitPoint (tick aiming) = Some (vec3 0 0 0) /\
  List.length (raysCast aiming) = 1%nat.
Proof.
  destruct (tick_visible aiming eq_refl) as (_ & -> & -> & _).
  rewrite arc_loop.
  change (samples (data aiming)) with 30%nat.
  destruct (arcLoop_goes_on (landingClass (data aiming)) (intersectObjects aiming)
              (el_worldPosition aiming) (launch aiming) (gravity (data aiming))
              29 0 (positions aiming) [] eq_refl) as [_ ->].
  destruct (arcLoop_lands (landingClass (data aiming)) (intersectObjects aiming)
              (el_worldPosition aiming) (launch aiming) (gravity (data aiming))
              28 1
              (write_sample 0
                 (pos_at (el_worldPosition aiming) (launch aiming)
                    (gravity (data aiming)) 0) (positions aiming))
              ([] ++ seg_rays (el_worldPosition aiming) (launch aiming)
                       (gravity (data aiming)) 0)
              lands_aiming_1) as (r & h & _ & Hh & ->).
  simpl. injection Hh as <-. split; reflexivity.
Qed.

(** C6, counterexample: in the default configuration the first segment
    meets the floor; sample 2 is never computed, and the array keeps its
    zero where the closed form has -0.72. *)
Lemma sample_after_hit_not_written :
  visible aiming = true /\
  (2 < samples (data aiming))%nat /\
  positions (tick aiming) !! (2 * 3 + 2)%nat = Some 0 /\
  z (sample aiming 2) = -0.72 /\
  positions (tick aiming) !! (2 * 3 + 2)%nat <> Some (z (sample aiming 2)).
Proof.
  assert (E : positions (tick aiming) !! (2 * 3 + 2)%nat = Some 0).
  { destruct (tick_positions aiming eq_refl) as (_ & _ & Hstale).
    rewrite (Hstale 2%nat 2%nat); [reflexivity | lia |].
    right. exists 1%nat. split; [lia | exact lands_aiming_1]. }
  assert (Z : z (sample aiming 2) = -0.72).
  { unfold sample. rewrite launch_aiming. unfold trajectory, dt. simpl. lra. }
  split; [reflexivity |]. split; [simpl; lia |].
  split; [exact E |]. split; [exact Z |].
  rewrite E, Z. intros H. injection H as H. lra.
Qed.

Lemma samples_follow_trajectory_until_hit_witness :
  visible aiming = true /\
  List.length (positions aiming) = (samples (data aiming) * 3)%nat /\
  (1 < samples (data aiming))%nat /\
  (forall k, (k < 1)%nat -> lands aiming k = false) /\
  positions (tick aiming) !! 5%nat = Some (z (sample aiming 1)).
Proof.
  assert (H0 : forall k, (k < 1)%nat -> lands aiming k = false).
  { intros [| k] Hk; [reflexivity | lia]. }
  split; [reflexivity |]. split; [reflexivity |].
  split; [simpl; lia |]. split; [exact H0 |].
  apply (samples_follow_trajectory_until_hit aiming 1 eq_refl eq_refl);
    [simpl; lia | exact H0].
Defined.

(** The arc that does not move has all its samples at the controller. *)
Lemma sample_still (i : nat) : sample still i = vec3 0 1 0.
Proof.
  unfold sample, trajectory, launch, add, multiplyScalar. simpl.
  f_equal; ring.
Qed.

Lemma segment_rays_still : segment_rays still = [].
Proof.
  unfold segment_rays, consecutive_pairs. simpl. unfold apart. simpl.
  rewrite !sample_still, distanceTo_same, Rltb_false by lra. reflexivity.
Qed.

(** C7, counterexample: with no velocity and no gravity the two samples
    coincide; they are a consecutive pair, and the frame casts no ray. *)
Lemma coincident_samples_cast_no_ray :
  visible still = true /\
  consecutive_pairs (sample still) (samples (data still))
    = [(sample still 0, sample still 1)] /\
  raysCast still = [].
Proof.
  split; [reflexivity |]. split; [reflexivity |].
  destruct (tick_rays still eq_refl)
    as [(_ & -> & _) | (before & r & after & h & _ & Hs & _)].
  - exact segment_rays_still.
  - rewrite segment_rays_still in Hs. destruct before; discriminate.
Qed.

Lemma tick_casts_rays_until_landing_witness :
  visible aiming = true /\
  exists before r after,
    segment_rays aiming = before ++ r :: after /\
    raysCast aiming = before ++ [r] /\
    first_landing_at aiming r (vec3 0 0 0).
Proof.
  split; [reflexivity |].
  pose proof (proj1 (tick_casts_rays_until_landing aiming eq_refl)) as H.
  rewrite (proj1 tick_aiming) in H.
  destruct H as (before & r & after & H1 & H2 & _ & H3).
  exists before, r, after. auto.
Defined.

(** C4, at the failing input: a landing hit and a rig, and a scene with no
    camera yet.  [doTeleport] returns at the camera guard: the rig is not
    moved, and the arc stays visible with its landing hit. *)
Theorem teleport_without_camera_stays_aiming :
  doTeleport aiming_no_camera = (Normal tt, aiming_no_camera) /\
  visible (exec doTeleport aiming_no_camera) = true /\
  line_visible (exec doTeleport aiming_no_camera) = true /\
  hitPoint (exec doTeleport aiming_no_camera) = Some (vec3 0 0 (-5)) /\
  cameraRig (exec doTeleport aiming_no_camera) = Some rig.
Proof.
  assert (E : doTeleport aiming_no_camera = (Normal tt, aiming_no_camera)).
  { apply (doTeleport_no_camera aiming_no_camera (vec3 0 0 (-5)) rig);
      reflexivity. }
  unfold exec. rewrite E. repeat split.
Qed.

(** The guard of the physics branch: for a rig with an [ammo-body] whose
    body has no [setWorldTransform], the guarded call does nothing and does
    not throw, so the assignment in the [catch] is not reached: the rig
    stays at the origin and the arc is hidden. *)
Lemma physics_rig_is_not_moved :
  fst (doTeleport aiming_physics_rig) = Normal tt /\
  cameraRig (exec doTeleport aiming_physics_rig) = Some physics_rig /\
  visible (exec doTeleport aiming_physics_rig) = false /\
  landing_position (vec3 0 0 (-5)) head physics_rig = vec3 0 (-1.6) (-5) /\
  position (object3D physics_rig) <> landing_position (vec3 0 0 (-5)) head physics_rig.
Proof.
  assert (E : landing_position (vec3 0 0 (-5)) head physics_rig = vec3 0 (-1.6) (-5)).
  { unfold landing_position, sub, add. simpl. f_equal; lra. }
  split; [reflexivity |].
  destruct (doTeleport_physics_update_returns aiming_physics_rig
              (vec3 0 0 (-5)) physics_rig head {| setWorldTransform := None |}
              eq_refl eq_refl eq_refl eq_refl eq_refl eq_refl eq_refl)
    as [Hr Hv].
  split; [exact Hr |]. split; [exact Hv |]. split; [exact E |].
  rewrite E. simpl. intros H. injection H as _ H. lra.
Qed.

Lemma platform_invertible (v : Vector3) :
  localToWorld AimPhysics.platform (worldToLocal AimPhysics.platform v) = v.
Proof.
  destruct v as [a b c]. unfold AimPhysics.platform, add, sub. simpl.
  f_equal; lra.
Qed.

Lemma head_rides (o : Object3D) :
  sub (camera_worldPosition head o) (getWorldPosition o) = vec3 0 1.6 0.
Proof.
  unfold head, add, sub. simpl. f_equal; lra.
Qed.

(** The physics-driven rig on the platform, with the body of the Ammo
    driver: [new CANNON] throws, the [catch] assigns, and the camera, 1.6
    above the rig before and after, ends at the hit point. *)
Lemma teleport_preserves_camera_offset_witness :
  visible AimPhysics.aiming_ammo_rig = true /\
  hitPoint AimPhysics.aiming_ammo_rig = Some (vec3 0 0 (-5)) /\
  cameraRig AimPhysics.aiming_ammo_rig = Some AimPhysics.ammo_rig /\
  camera AimPhysics.aiming_ammo_rig = Some head /\
  physics_update_fails AimPhysics.aiming_ammo_rig AimPhysics.ammo_rig /\
  exists r',
    cameraRig (exec doTeleport AimPhysics.aiming_ammo_rig) = Some r' /\
    position (object3D r') = vec3 0 (-2.6) (-5) /\
    getWorldPosition (object3D r') = vec3 0 (-1.6) (-5) /\
    sub (camera_worldPosition head (object3D r')) (getWorldPosition (object3D r'))
    = vec3 0 1.6 0.
Proof.
  assert (Hf : physics_update_fails AimPhysics.aiming_ammo_rig AimPhysics.ammo_rig).
  { intros _ b Hb. injection Hb as <-. split; discriminate. }
  split; [reflexivity |]. split; [reflexivity |]. split; [reflexivity |].
  split; [reflexivity |]. split; [exact Hf |].
  destruct (Teleport.teleport_preserves_camera_offset AimPhysics.aiming_ammo_rig
              (vec3 0 0 (-5)) AimPhysics.ammo_rig head
              eq_refl eq_refl eq_refl eq_refl Hf)
    as (r' & _ & Hr' & _ & Hp & Hw).
  assert (Eo : sub (camera_worldPosition head (object3D AimPhysics.ammo_rig))
                   (getWorldPosition (object3D AimPhysics.ammo_rig))
               = vec3 0 1.6 0) by apply head_rides.
  rewrite Eo in Hp, Hw.
  destruct Hw as [Hw Hoff].
  { intros f v Hpar. injection Hpar as <-. apply platform_invertible. }
  exists r'. split; [exact Hr' |].
  split.
  { rewrite Hp. simpl. unfold sub. simpl. f_equal; lra. }
  split.
  { rewrite Hw. unfold sub. simpl. f_equal; lra. }
  apply Hoff. intros o _. apply head_rides.
Defined.

End TeleportRuns.

(** ** grab-control: the life of a session *)

Section GrabLifecycle.
Import Js Three GrabControl GrabSpec GrabNotions.
Context {L : AmmoAPI}.

Lemma filter_fresh_handle (n h : nat) (l : list nat) :
  Forall (fun k => (k < n)%nat) l -> (n <= h)%nat ->
  List.filter (fun k => negb (Nat.eqb k h)) l = l.
Proof.
  intros Hl Hh. induction Hl as [| k l Hk _ IH]; simpl; [reflexivity |].
  replace (k =? h) with false by (symmetry; apply Nat.eqb_neq; lia).
  simpl. f_equal. exact IH.
Qed.

Lemma filter_handle_same (h : nat) :
  List.filter (fun k => negb (Nat.eqb k h)) [h] = [].
Proof. simpl. rewrite Nat.eqb_refl. reflexivity. Qed.

Lemma filter_handle_other (h k : nat) :
  k <> h -> List.filter (fun k => negb (Nat.eqb k h)) [k] = [k].
Proof. intros H. simpl. apply Nat.eqb_neq in H. rewrite H. reflexivity. Qed.

Lemma filter_handle_nil (h : nat) :
  List.filter (fun k => negb (Nat.eqb k h)) [] = [].
Proof. reflexivity. Qed.

Ltac into_grab Hh Ho HA :=
  unfold exec, grab, bind, get; cbv beta iota;
  rewrite Hh, Ho; cbv beta iota;
  unfold modify at 1; cbv beta iota;
  rewrite HA; simpl negb; cbv beta iota;
  unfold new_native, modify, destroy, emit, setActivationState, addConstraint;
  simpl.

(** Two states with the same fields are the same state. *)
Lemma State_ext (a b : State) :
  el a = el b -> constraint a = constraint b ->
  grabbedObject a = grabbedObject b -> scene a = scene b ->
  window_Ammo a = window_Ammo b -> global_ammo a = global_ammo b ->
  physicsWorld a = physicsWorld b -> activationState a = activationState b ->
  emitted a = emitted b -> next_handle a = next_handle b -> live a = live b ->
  a = b.
Proof. destruct a, b. simpl. intros. subst. reflexivity. Qed.

Ltac same_state :=
  unfold modify; f_equal; apply State_ext; simpl;
  try reflexivity; try assumption; try (symmetry; assumption).

Ltac settle_handles s Hl :=
  rewrite !List.filter_app;
  repeat first
    [ rewrite (filter_fresh_handle (next_handle s) _ (live s) Hl) by lia
    | rewrite filter_handle_same
    | rewrite filter_handle_other by lia
    | rewrite filter_handle_nil ];
  rewrite ?app_nil_r.

(** The whole state after a grab that goes through, when the native
    objects alive have handles the allocator has handed out. *)
Lemma grab_success_state (target : Entity) (s : State) (hb ob : Body)
  (w : list (Constraint * bool)) :
  body (el s) = Some hb -> body target = Some ob -> window_Ammo s = true ->
  physicsWorld s = Some w ->
  Forall (fun k => (k < next_handle s)%nat) (live s) ->
  grab target s =
    (Normal tt,
     {| el := el s;
        constraint := Some (welded hb ob (4 + next_handle s));
        grabbedObject := Some target;
        scene := scene s;
        window_Ammo := window_Ammo s;
        global_ammo := global_ammo s;
        physicsWorld := Some (w ++ [(welded hb ob (4 + next_handle s), true)]);
        activationState := write_activation (body_id ob) 4 (activationState s);
        emitted := emitted s ++ [(el_id target, "grab-start"%string)];
        next_handle := 7 + next_handle s;
        live := live s ++ [4 + next_handle s] |}).
Proof.
  intros Hh Ho HA Hw Hl. into_grab Hh Ho HA. rewrite Hw. simpl.
  same_state. settle_handles s Hl. reflexivity.
Qed.

(** The native objects alive after a grab that throws at the driver. *)
Lemma grab_no_physics_live (target : Entity) (s : State) (hb ob : Body) :
  body (el s) = Some hb -> body target = Some ob -> window_Ammo s = true ->
  physicsWorld s = None ->
  live (exec (grab target) s) = live s ++ seq (next_handle s) 7.
Proof.
  intros Hh Ho HA Hw. into_grab Hh Ho HA. rewrite Hw. simpl.
  rewrite <- !app_assoc. reflexivity.
Qed.

(** The whole state after a release that goes through. *)
Lemma release_success_state (s : State) (c : Constraint)
  (w : list (Constraint * bool)) (g : Entity) (b : Body) :
  constraint s = Some c -> physicsWorld s = Some w -> global_ammo s = true ->
  grabbedObject s = Some g -> body g = Some b ->
  release s =
    (Normal tt,
     {| el := el s;
        constraint := None;
        grabbedObject := None;
        scene := scene s;
        window_Ammo := window_Ammo s;
        global_ammo := global_ammo s;
        physicsWorld :=
          Some (List.filter (fun p => negb (Nat.eqb (handle (fst p)) (handle c))) w);
        activationState := write_activation (body_id b) 1 (activationState s);
        emitted := emitted s ++ [(el_id g, "grab-end"%string)];
        next_handle := next_handle s;
        live := List.filter (fun k => negb (Nat.eqb k (handle c))) (live s) |}).
Proof.
  intros Hc Hw Hg Hgr Hb.
  unfold release, bind, get; cbv beta iota. rewrite Hc; cbv beta iota.
  unfold removeConstraint. rewrite Hw; cbv beta iota.
  simpl. rewrite Hg. simpl. rewrite Hgr. simpl. rewrite Hb. simpl.
  same_state.
Qed.

(** A release that gets past [ammo.destroy] and finds the held entity
    without a body: the constraint is gone, the entity stays recorded. *)
Lemma release_body_missing (s : State) (c : Constraint)
  (w : list (Constraint * bool)) (g : Entity) :
  constraint s = Some c -> physicsWorld s = Some w -> global_ammo s = true ->
  grabbedObject s = Some g -> body g = None ->
  fst (release s) = Throw TypeError /\
  constraint (exec release s) = None /\
  grabbedObject (exec release s) = Some g /\
  emitted (exec release s) = emitted s.
Proof.
  intros Hc Hw Hg Hgr Hb.
  unfold exec, release, bind, get; cbv beta iota. rewrite Hc; cbv beta iota.
  unfold removeConstraint. rewrite Hw; cbv beta iota.
  simpl. rewrite Hg. simpl. rewrite Hgr. simpl. rewrite Hb. simpl.
  repeat split; assumption.
Qed.

(** A body in state 4 or 5 keeps its state. *)
Lemma write_activation_locked (id : nat) (k : Z) (a : gmap nat Z) :
  activation_locked (a !! id) = true -> write_activation id k a = a.
Proof. intros H. unfold write_activation. rewrite H. reflexivity. Qed.

(** After [setActivationState(4)] a body is in state 4, or in state 5 when
    it was in state 5. *)
Lemma write_activation_4 (id : nat) (a : gmap nat Z) :
  (write_activation id 4 a !! id = Some 4%Z \/
   write_activation id 4 a !! id = Some 5%Z) /\
  (activation_locked (a !! id) = false ->
   write_activation id 4 a !! id = Some 4%Z).
Proof.
  unfold write_activation.
  destruct (activation_locked (a !! id)) eqn:E.
  - split; [| discriminate].
    destruct (a !! id) as [k |]; simpl in E; [| discriminate].
    apply orb_true_iff in E as [E | E]; apply Z.eqb_eq in E; subst; auto.
  - rewrite lookup_insert_eq. auto.
Qed.

(** X1: a grab that goes through followed by a release, on a page where
    the identifier [ammo] of [release] is bound: the physics world, the
    component and the set of native objects alive are as before the grab,
    and the log has gained a [grab-start] and a [grab-end] on the target.
    The activation state of the target's body is not given back: the
    [setActivationState(1)] of [release] comes after the
    [setActivationState(4)] of [grab], and Bullet ignores it, so the body
    is left with deactivation disabled, in state 4 (or 5, when it was in
    state 5 before the grab). *)
Theorem grab_then_release_restores (target : Entity) (s : State) (hb ob : Body)
  (w : list (Constraint * bool)) :
  body (el s) = Some hb -> body target = Some ob ->
  window_Ammo s = true -> global_ammo s = true ->
  physicsWorld s = Some w ->
  Forall (fun p => (handle (fst p) < next_handle s)%nat) w ->
  Forall (fun k => (k < next_handle s)%nat) (live s) ->
  let s' := exec release (exec (grab target) s) in
  fst (release (exec (grab target) s)) = Normal tt /\
  constraint s' = None /\ grabbedObject s' = None /\
  physicsWorld s' = Some w /\
  live s' = live s /\
  emitted s' = emitted s ++ [(el_id target, "grab-start"%string);
                             (el_id target, "grab-end"%string)] /\
  activationState s' = activationState (exec (grab target) s) /\
  (activationState s' !! body_id ob = Some 4%Z \/
   activationState s' !! body_id ob = Some 5%Z) /\
  (activation_locked (activationState s !! body_id ob) = false ->
   activationState s' !! body_id ob = Some 4%Z).
Proof.
  intros Hh Ho HA Hg Hw Hfw Hfl s'. subst s'. unfold exec.
  rewrite (grab_success_state target s hb ob w Hh Ho HA Hw Hfl).
  cbn [snd].
  rewrite (release_success_state _ (welded hb ob (4 + next_handle s))
             (w ++ [(welded hb ob (4 + next_handle s), true)]) target ob)
    by (try reflexivity; assumption).
  cbn [fst snd constraint grabbedObject physicsWorld live emitted activationState].
  split; [reflexivity |]. split; [reflexivity |]. split; [reflexivity |].
  split.
  { f_equal. apply (filter_own_handle (welded hb ob (4 + next_handle s)) w).
    apply (Forall_handles_other w (next_handle s)); [simpl; lia | exact Hfw]. }
  split.
  { rewrite List.filter_app.
    rewrite (filter_fresh_handle (next_handle s)) by (simpl; assumption || lia).
    change (handle (welded hb ob (4 + next_handle s))) with (4 + next_handle s)%nat.
    rewrite filter_handle_same. apply app_nil_r. }
  split; [rewrite <- app_assoc; reflexivity |].
  destruct (write_activation_4 (body_id ob) (activationState s)) as [H45 H4].
  assert (E : write_activation (body_id ob) 1
                (write_activation (body_id ob) 4 (activationState s))
              = write_activation (body_id ob) 4 (activationState s)).
  { apply write_activation_locked.
    destruct H45 as [-> | ->]; reflexivity. }
  rewrite E. split; [reflexivity |]. split; [exact H45 | exact H4].
Qed.

(** X2: [grab] destroys its six temporaries exactly when it runs to its
    end: then the constraint is the one native object it leaves alive; when
    the read of the physics driver throws, the four transforms, the
    constraint and the two vectors all stay alive. *)
Theorem grab_temporaries (target : Entity) (s : State) (hb ob : Body) :
  body (el s) = Some hb -> body target = Some ob -> window_Ammo s = true ->
  Forall (fun k => (k < next_handle s)%nat) (live s) ->
  (physicsWorld s <> None ->
     live (exec (grab target) s) = live s ++ [4 + next_handle s]) /\
  (physicsWorld s = None ->
     live (exec (grab target) s) = live s ++ seq (next_handle s) 7).
Proof.
  intros Hh Ho HA Hl. split.
  - destruct (physicsWorld s) as [w |] eqn:Hw; [intros _ | congruence].
    unfold exec. rewrite (grab_success_state target s hb ob w Hh Ho HA Hw Hl).
    reflexivity.
  - intros Hw. apply (grab_no_physics_live target s hb ob Hh Ho HA Hw).
Qed.

(** X3: [release] returns normally exactly when there is no constraint, or
    when the physics world exists, the identifier [ammo] is bound, and the
    entity held, if any, has a body. *)
Theorem release_returns_iff (s : State) :
  fst (release s) = Normal tt <->
  constraint s = None \/
  (physicsWorld s <> None /\ global_ammo s = true /\
   forall g, grabbedObject s = Some g -> body g <> None).
Proof.
  unfold release, bind, get, removeConstraint; cbv beta iota.
  destruct (constraint s) as [c |] eqn:Hc; [| simpl; split; auto].
  destruct (physicsWorld s) as [w |] eqn:Hw; cbv beta iota;
    [| simpl; split; [discriminate | intros [H | (H & _)]; congruence]].
  simpl. destruct (global_ammo s) eqn:Hg; simpl;
    [| split; [discriminate | intros [H | (_ & H & _)]; congruence]].
  destruct (grabbedObject s) as [g |] eqn:Hgr; simpl.
  - destruct (body g) as [b |] eqn:Hb; simpl.
    + split; [| reflexivity]. intros _. right.
      split; [discriminate |]. split; [reflexivity |].
      intros g' [= <-]. congruence.
    + split; [discriminate |].
      intros [H | (_ & _ & H)]; [discriminate |].
      exfalso. exact (H g eq_refl Hb).
  - split; [| reflexivity]. intros _. right.
    split; [discriminate |]. split; [reflexivity |]. intros g Hg'. discriminate.
Qed.

(** X4: on a page with no global named [ammo], an entity held under a
    constraint is never let go: after any sequence of button events the
    controller still records the same entity and the same constraint, and
    nothing more has been emitted. *)
Theorem held_entity_is_never_released (s : State) (c : Constraint) (g : Entity)
  (evs : list Event) :
  global_ammo s = false -> constraint s = Some c -> grabbedObject s = Some g ->
  grabbedObject (run evs s) = Some g /\
  constraint (run evs s) = Some c /\
  emitted (run evs s) = emitted s.
Proof.
  revert s. induction evs as [| ev evs IH]; intros s Hg Hc Hgr; [auto |].
  assert (Hstep : global_ammo (exec (handle_event ev) s) = false /\
                  constraint (exec (handle_event ev) s) = Some c /\
                  grabbedObject (exec (handle_event ev) s) = Some g /\
                  emitted (exec (handle_event ev) s) = emitted s).
  { destruct ev; simpl.
    - unfold exec. rewrite onButtonDown_held by congruence. auto.
    - unfold exec, onButtonUp, bind, get; cbv beta iota. rewrite Hgr.
      destruct (physicsWorld s) as [w |] eqn:Hw.
      + rewrite (release_no_ammo s c w Hc Hw Hg). simpl. auto.
      + rewrite (release_no_physics s c Hc Hw). auto. }
  destruct Hstep as (Hg' & Hc' & Hgr' & He').
  simpl. rewrite <- He'. apply IH; assumption.
Qed.

(** X5: a controller that records an entity and has no constraint, the
    state [grab] leaves when [window.Ammo] is not set, is stuck: no
    sequence of button events changes anything. *)
Theorem recorded_without_constraint_is_stuck (s : State) (evs : list Event) :
  constraint s = None -> grabbedObject s <> None -> run evs s = s.
Proof.
  intros Hc Hg. induction evs as [| ev evs IH]; [reflexivity |].
  simpl. replace (exec (handle_event ev) s) with s; [exact IH |].
  destruct ev; simpl; unfold exec.
  - rewrite onButtonDown_held by assumption. reflexivity.
  - unfold onButtonUp, bind, get; cbv beta iota.
    destruct (grabbedObject s); [| reflexivity].
    rewrite release_no_constraint by assumption. reflexivity.
Qed.

(** X6: an activation throws only in a scene with no physics system, and
    then only a TypeError, after a target was selected and recorded
    together with a constraint that is in no physics world. *)
Theorem activation_throws_only_without_physics (s : State) (e : Exn) :
  fst (onButtonDown s) = Throw e ->
  e = TypeError /\ physicsWorld s = None /\
  grabbedObject s = None /\
  grabbedObject (exec onButtonDown s) = closestEl (el s) (scene s) /\
  constraint (exec onButtonDown s) <> None /\
  activeConstraints (exec onButtonDown s) = [].
Proof.
  destruct (grabbedObject s) as [g |] eqn:Hgr.
  { rewrite onButtonDown_held by congruence. discriminate. }
  unfold exec. rewrite (onButtonDown_idle s Hgr).
  destruct (closestEl (el s) (scene s)) as [t |]; [| discriminate].
  destruct (body (el s)) as [hb |] eqn:Hh;
    [| rewrite grab_no_body by auto; discriminate].
  destruct (body t) as [ob |] eqn:Ho;
    [| rewrite grab_no_body by auto; discriminate].
  destruct (window_Ammo s) eqn:HA;
    [| rewrite (grab_no_Ammo t s hb ob Hh Ho HA); discriminate].
  destruct (physicsWorld s) as [w |] eqn:Hw.
  - destruct (grab_success t s hb ob w Hh Ho HA Hw) as (E & _).
    rewrite E. discriminate.
  - destruct (grab_no_physics t s hb ob Hh Ho HA Hw) as (E & Hc & Hg & Hp & _).
    unfold exec in Hc, Hg, Hp. rewrite E. intros [= <-].
    split; [reflexivity |]. split; [reflexivity |]. split; [reflexivity |].
    split; [exact Hg |]. split; [rewrite Hc; discriminate |].
    unfold activeConstraints. rewrite Hp. reflexivity.
Qed.

(** X7: a hand with no physics body never grabs: from a state with
    nothing held, no sequence of button events changes anything, whatever
    the scene holds. *)
Theorem hand_without_body_never_grabs (s : State) (evs : list Event) :
  body (el s) = None -> grabbedObject s = None -> run evs s = s.
Proof.
  intros Hb Hg. induction evs as [| ev evs IH]; [reflexivity |].
  simpl. replace (exec (handle_event ev) s) with s; [exact IH |].
  destruct ev; simpl; unfold exec.
  - rewrite (onButtonDown_idle s Hg).
    destruct (closestEl (el s) (scene s)); [| reflexivity].
    rewrite grab_no_body by auto. reflexivity.
  - unfold onButtonUp, bind, get; cbv beta iota. rewrite Hg. reflexivity.
Qed.

End GrabLifecycle.

(** ** grab-control: what the scan ignores, and the event log *)

Section GrabMore.
Import Js Three GrabControl GrabSpec GrabNotions GrabScan.
Context {L : AmmoAPI}.
Local Open Scope R_scope.

Lemma in_reach_eligible (self e : Entity) :
  in_reach self e = true ->
  has_ammo_body e = true /\ eligible self e /\ dist self e < interactionRadius.
Proof.
  unfold in_reach, eligible. intros H.
  apply andb_prop in H as [H Hd]. apply andb_prop in H as [H Hm].
  apply andb_prop in H as [H Hg]. apply andb_prop in H as [Ha Hs].
  apply negb_true_iff in Hs. apply Rltb_spec in Hd.
  destruct (mesh e); [| discriminate].
  repeat split; auto; discriminate.
Qed.

Lemma not_in_reach (self e : Entity) :
  in_reach self e = false -> has_ammo_body e = true ->
  ~ eligible self e \/ interactionRadius <= dist self e.
Proof.
  unfold in_reach, eligible. intros H Ha. rewrite Ha in H. simpl in H.
  destruct (same_el e self); [left; intros [? _]; discriminate |].
  destruct (isGrabbable e); [| left; intros (_ & ? & _); discriminate].
  destruct (mesh e); [| left; intros (_ & _ & ?); congruence].
  simpl in H. right.
  destruct (Rlt_dec (dist self e) interactionRadius) as [Hlt | Hge];
    [rewrite (Rltb_true _ _ Hlt) in H; discriminate | lra].
Qed.

(** The scan over the candidates is the scan over those in reach. *)
Lemma scan_in_reach (self : Entity) (els : list Entity) : forall c m,
  m <= interactionRadius ->
  scan self (worldPosition self) (List.filter has_ammo_body els) c m =
  scan self (worldPosition self) (List.filter (in_reach self) els) c m.
Proof.
  induction els as [| a els IH]; intros c m Hm; [reflexivity |].
  simpl List.filter.
  destruct (in_reach self a) eqn:Hr.
  - destruct (in_reach_eligible self a Hr) as (Ha & He & Hd). rewrite Ha.
    rewrite !(scan_measure _ _ _ _ _ _ He). fold (dist self a).
    destruct (Rltb (dist self a) m); [apply IH; lra | apply IH, Hm].
  - destruct (has_ammo_body a) eqn:Ha; [| apply IH, Hm].
    destruct (not_in_reach self a Hr Ha) as [Hne | Hfar].
    + rewrite (scan_skip _ _ _ _ _ _ Hne). apply IH, Hm.
    + destruct (eligible_dec self a) as [He | Hne].
      * rewrite (scan_measure _ _ _ _ _ _ He). fold (dist self a).
        rewrite Rltb_false by lra. apply IH, Hm.
      * rewrite (scan_skip _ _ _ _ _ _ Hne). apply IH, Hm.
Qed.

Lemma filter_in_reach_candidates (self : Entity) (els : list Entity) :
  List.filter has_ammo_body (List.filter (in_reach self) els)
  = List.filter (in_reach self) els.
Proof.
  induction els as [| a els IH]; [reflexivity |]. simpl.
  destruct (in_reach self a) eqn:Hr; [| exact IH].
  simpl. rewrite (proj1 (in_reach_eligible self a Hr)). f_equal. exact IH.
Qed.

(** X8: what the scan selects does not depend on the entities out of
    reach: taking out of the scene every entity that does not match the
    selector, is the hand, is not marked grabbable, has no mesh, or is at
    0.3 or more from the hand, leaves the selection as it is. *)
Theorem selection_ignores_entities_out_of_reach (self : Entity) (scene : list Entity) :
  closestEl self scene = closestEl self (List.filter (in_reach self) scene).
Proof.
  unfold closestEl, querySelectorAll_ammo_body.
  rewrite filter_in_reach_candidates.
  rewrite (scan_in_reach self scene None interactionRadius) by lra.
  reflexivity.
Qed.

Lemma sessions_closed_step (l : list (nat * string)) (e : nat) :
  sessions_closed l ->
  sessions_closed ((l ++ [(e, "grab-start"%string)]) ++ [(e, "grab-end"%string)]).
Proof. intros H. rewrite <- app_assoc. simpl. apply closed_snoc, H. Qed.

(** Every handler keeps the invariant of the log. *)
Lemma handle_event_log (ev : Event) (s : State) :
  log_invariant s -> log_invariant (exec (handle_event ev) s).
Proof.
  intros Hinv. destruct ev; simpl.
  - (* button down *)
    destruct (grabbedObject s) as [g0 |] eqn:Hgr.
    { unfold exec. rewrite onButtonDown_held by congruence. exact Hinv. }
    unfold exec. rewrite (onButtonDown_idle s Hgr).
    destruct (closestEl (el s) (scene s)) as [t |]; [| exact Hinv].
    destruct Hinv as [[Hcl Hc] | (l & g & _ & _ & Hg)]; [| congruence].
    destruct (body (el s)) as [hb |] eqn:Hh;
      [| rewrite grab_no_body by auto; left; auto].
    destruct (body t) as [ob |] eqn:Ho;
      [| rewrite grab_no_body by auto; left; auto].
    destruct (window_Ammo s) eqn:HA;
      [| rewrite (grab_no_Ammo t s hb ob Hh Ho HA); left; auto].
    destruct (physicsWorld s) as [w |] eqn:Hw.
    + destruct (grab_success t s hb ob w Hh Ho HA Hw)
        as (_ & _ & Hg' & _ & _ & He' & _).
      right. exists (emitted s), t. auto.
    + destruct (grab_no_physics t s hb ob Hh Ho HA Hw)
        as (_ & _ & _ & Hp' & _ & He').
      left. unfold exec in He', Hp'. rewrite He'. auto.
  - (* button up *)
    unfold exec, onButtonUp, bind, get; cbv beta iota.
    destruct (grabbedObject s) as [g0 |] eqn:Hgr; [| exact Hinv].
    destruct (constraint s) as [c |] eqn:Hc;
      [| rewrite release_no_constraint by assumption; exact Hinv].
    destruct (physicsWorld s) as [w |] eqn:Hw;
      [| rewrite (release_no_physics s c Hc Hw); exact Hinv].
    destruct Hinv as [[_ [H | H]] | (l & g & He & Hcl & Hg)]; try congruence.
    rewrite Hgr in Hg. injection Hg as <-.
    destruct (global_ammo s) eqn:Hga.
    + destruct (body g0) as [b |] eqn:Hb.
      * rewrite (release_success_state s c w g0 b Hc Hw Hga Hgr Hb). simpl.
        left. split; [| left; reflexivity].
        rewrite He. apply sessions_closed_step, Hcl.
      * destruct (release_body_missing s c w g0 Hc Hw Hga Hgr Hb)
          as (_ & _ & Hg' & He').
        right. exists l, g0. unfold exec in Hg', He'. rewrite He'. auto.
    + rewrite (release_no_ammo s c w Hc Hw Hga). simpl.
      right. exists l, g0. auto.
Qed.

(** X9: from a controller as [init] leaves it and an empty log, after any
    sequence of button events the events emitted are a sequence of closed
    sessions, each a [grab-start] and then a [grab-end] on the same entity,
    followed by the [grab-start] of the entity held when a session is
    open: a [grab-end] is never emitted without the [grab-start] of the
    same entity just before it. *)
Theorem events_come_in_sessions (s : State) (evs : list Event) :
  emitted s = [] -> sessions_logged (run evs (init s)).
Proof.
  intros He.
  assert (Hrun : forall evs s', log_invariant s' -> log_invariant (run evs s')).
  { clear. induction evs as [| ev evs IH]; intros s' H; [exact H |].
    simpl. apply IH, handle_event_log, H. }
  assert (H0 : log_invariant (init s)).
  { left. simpl. rewrite He. split; [constructor | left; reflexivity]. }
  destruct (Hrun evs (init s) H0) as [[H _] | H]; [left; exact H | right; exact H].
Qed.

End GrabMore.

(** ** grab-control: the further properties on the concrete scene *)

Module GrabLifeRuns.
Import Js Three GrabControl GrabSpec GrabNotions Scene Pages GrabExamples GrabRuns.
Local Open Scope R_scope.
#[local] Existing Instance line_ammo.

Lemma grab_then_release_restores_witness :
  body (el idle_ammo_bound) = Some {| body_id := 1 |} /\
  body cube = Some {| body_id := 3 |} /\
  window_Ammo idle_ammo_bound = true /\ global_ammo idle_ammo_bound = true /\
  physicsWorld idle_ammo_bound = Some [] /\
  Forall (fun p : Constraint * bool =>
            (handle (fst p) < next_handle idle_ammo_bound)%nat) [] /\
  Forall (fun k => (k < next_handle idle_ammo_bound)%nat) (live idle_ammo_bound) /\
  physicsWorld (exec release (exec (grab cube) idle_ammo_bound)) = Some [] /\
  grabbedObject (exec release (exec (grab cube) idle_ammo_bound)) = None /\
  activationState (exec release (exec (grab cube) idle_ammo_bound)) !! 3%nat
    = Some 4%Z.
Proof.
  split; [reflexivity |]. split; [reflexivity |]. split; [reflexivity |].
  split; [reflexivity |]. split; [reflexivity |].
  split; [constructor |]. split; [constructor |].
  destruct (grab_then_release_restores cube idle_ammo_bound _ _ []
              eq_refl eq_refl eq_refl eq_refl eq_refl
              (List.Forall_nil _) (List.Forall_nil _))
    as (_ & _ & Hg & Hw & _ & _ & _ & _ & H4).
  split; [exact Hw |]. split; [exact Hg |]. exact (H4 eq_refl).
Defined.

Lemma grab_temporaries_witness :
  body (el idle) = Some {| body_id := 1 |} /\
  body cube = Some {| body_id := 3 |} /\
  window_Ammo idle = true /\
  Forall (fun k => (k < next_handle idle)%nat) (live idle) /\
  live (exec (grab cube) idle) = [4%nat].
Proof.
  split; [reflexivity |]. split; [reflexivity |]. split; [reflexivity |].
  split; [constructor |].
  apply (proj1 (grab_temporaries cube idle _ _ eq_refl eq_refl eq_refl
                  (List.Forall_nil _))).
  discriminate.
Defined.

Lemma held_entity_is_never_released_witness :
  global_ammo holding = false /\
  constraint holding = Some (welded {| body_id := 1 |} {| body_id := 3 |} 4) /\
  grabbedObject holding = Some cube /\
  grabbedObject (run [ButtonUp; ButtonUp; ButtonDown; ButtonUp] holding) = Some cube.
Proof.
  split; [reflexivity |]. split; [reflexivity |]. split; [reflexivity |].
  exact (proj1 (held_entity_is_never_released holding _ cube
                  [ButtonUp; ButtonUp; ButtonDown; ButtonUp]
                  eq_refl eq_refl eq_refl)).
Defined.

Lemma recorded_without_constraint_is_stuck_witness :
  constraint (set_grabbedObject (Some cube) idle_no_Ammo) = None /\
  grabbedObject (set_grabbedObject (Some cube) idle_no_Ammo) <> None /\
  run [ButtonUp; ButtonDown] (set_grabbedObject (Some cube) idle_no_Ammo)
    = set_grabbedObject (Some cube) idle_no_Ammo.
Proof.
  assert (H : grabbedObject (set_grabbedObject (Some cube) idle_no_Ammo) <> None)
    by discriminate.
  split; [reflexivity |]. split; [exact H |].
  exact (recorded_without_constraint_is_stuck
           (set_grabbedObject (Some cube) idle_no_Ammo)
           [ButtonUp; ButtonDown] eq_refl H).
Defined.

Lemma activation_throws_without_physics :
  fst (onButtonDown idle_no_physics) = Throw TypeError.
Proof.
  rewrite onButtonDown_idle by reflexivity.
  change (closestEl (el idle_no_physics) (scene idle_no_physics))
    with (closestEl hand [hand; ghost; cube]).
  rewrite closestEl_idle.
  apply (grab_no_physics cube idle_no_physics {| body_id := 1 |} {| body_id := 3 |});
    reflexivity.
Qed.

Lemma activation_throws_only_without_physics_witness :
  fst (onButtonDown idle_no_physics) = Throw TypeError /\
  physicsWorld idle_no_physics = None /\
  constraint (exec onButtonDown idle_no_physics) <> None.
Proof.
  split; [exact activation_throws_without_physics |].
  destruct (activation_throws_only_without_physics idle_no_physics TypeError
              activation_throws_without_physics) as (_ & Hp & _ & _ & Hc & _).
  split; [exact Hp | exact Hc].
Defined.

Lemma hand_without_body_never_grabs_witness :
  body (el idle_bare_hand) = None /\ grabbedObject idle_bare_hand = None /\
  run [ButtonDown; ButtonUp; ButtonDown] idle_bare_hand = idle_bare_hand.
Proof.
  split; [reflexivity |]. split; [reflexivity |].
  exact (hand_without_body_never_grabs idle_bare_hand
           [ButtonDown; ButtonUp; ButtonDown] eq_refl eq_refl).
Defined.

Lemma events_come_in_sessions_witness :
  emitted idle_ammo_bound = [] /\
  sessions_logged (run [ButtonDown; ButtonUp; ButtonDown] (init idle_ammo_bound)).
Proof.
  split; [reflexivity |].
  exact (events_come_in_sessions idle_ammo_bound [ButtonDown; ButtonUp; ButtonDown] eq_refl).
Defined.

End GrabLifeRuns.

(** ** teleport-arc: what [doTeleport] does in every case *)

Section TeleportCases.
Import Js Three TeleportArc TeleportSpec Teleport.
Local Open Scope R_scope.

(** The update of the physics body leaves everything but its call count. *)
Lemma try_setWorldTransform_state (b : RigBody) (s : State) :
  snd (try_setWorldTransform b s) = s \/
  (fst (try_setWorldTransform b s) = Normal tt /\
   snd (try_setWorldTransform b s) = set_calls (S (setWorldTransform_calls s)) s).
Proof.
  unfold try_setWorldTransform, new_CANNON_Transform, bind, get, throw, ret, modify.
  destruct (setWorldTransform b) as [[] |]; simpl;
    destruct (CANNON s) as [| | []]; simpl; auto.
Qed.

(** X10: [doTeleport] never throws: whatever the update of the physics
    body throws is caught, and nothing else in it can fail. *)
Theorem doTeleport_returns (s : State) : fst (doTeleport s) = Normal tt.
Proof.
  unfold doTeleport, bind, get; cbv beta iota.
  destruct (visible s); simpl; [| reflexivity].
  destruct (hitPoint s) as [hit |]; [| reflexivity].
  destruct (cameraRig s) as [r |]; [| reflexivity].
  destruct (camera s) as [cam |]; [| reflexivity].
  destruct (ammo_body r); [| reflexivity].
  destruct (rig_body r) as [b |]; [| reflexivity].
  unfold try_catch, try_setWorldTransform, new_CANNON_Transform, bind, get,
    throw, ret, modify.
  destruct (setWorldTransform b) as [[] |]; simpl;
    destruct (CANNON s) as [| | []]; reflexivity.
Qed.

(** Either [doTeleport] changes nothing, or it hides the arc and leaves
    the configuration, the position array, the camera and the pose of the
    controller as they are. *)
Lemma doTeleport_effect (s : State) :
  exec doTeleport s = s \/
  (visible s = true /\
   visible (exec doTeleport s) = false /\
   line_visible (exec doTeleport s) = false /\
   cursorMesh_visible (exec doTeleport s) = false /\
   hitPoint (exec doTeleport s) = None /\
   positions (exec doTeleport s) = positions s /\
   data (exec doTeleport s) = data s).
Proof.
  unfold exec, doTeleport, bind, get; cbv beta iota.
  destruct (visible s) eqn:Hv; simpl; [| left; reflexivity].
  destruct (hitPoint s) as [hit |]; [| right; repeat split].
  destruct (cameraRig s) as [r |]; [| right; repeat split].
  destruct (camera s) as [cam |]; [| left; reflexivity].
  right. split; [reflexivity |].
  destruct (ammo_body r); [| repeat split].
  destruct (rig_body r) as [b |]; [| repeat split].
  unfold try_catch, try_setWorldTransform, new_CANNON_Transform, bind, get,
    throw, ret, modify.
  destruct (setWorldTransform b) as [[] |]; simpl;
    destruct (CANNON s) as [| | []]; simpl; repeat split.
Qed.

(** X11: a second [doTeleport] right after a first changes nothing: the
    rig moves at most once for one aim. *)
Theorem doTeleport_twice (s : State) :
  exec doTeleport (exec doTeleport s) = exec doTeleport s.
Proof.
  destruct (doTeleport_effect s) as [H | (_ & Hv & _)].
  - rewrite H. exact H.
  - unfold exec at 1. rewrite (doTeleport_hidden _ Hv). reflexivity.
Qed.

(** [doTeleport] leaves the rig alone when the arc is hidden, when there
    is no landing hit, and when the scene has no camera. *)
Lemma doTeleport_rig_unchanged (s : State) :
  visible s = false \/ hitPoint s = None \/ camera s = None ->
  cameraRig (exec doTeleport s) = cameraRig s.
Proof.
  intros H. unfold exec.
  destruct (visible s) eqn:Hv; [| rewrite (doTeleport_hidden s Hv); reflexivity].
  destruct (hitPoint s) as [hit |] eqn:Hh;
    [| rewrite (doTeleport_no_target s Hv) by auto; reflexivity].
  destruct (cameraRig s) as [r |] eqn:Hr;
    [| rewrite (doTeleport_no_target s Hv) by auto; exact Hr].
  destruct (camera s) as [cam |] eqn:Hc;
    [| rewrite (doTeleport_no_camera s hit r Hv Hh Hr Hc); exact Hr].
  destruct H as [H | [H | H]]; discriminate.
Qed.

(** X12: a release uses the landing hit of the last frame only.  When the
    last frame found no landing surface the release does not move the rig,
    whatever hit an earlier frame had recorded; when it found one, and the
    rig moves by the direct assignment, the rig goes to that hit minus the
    offset of the camera. *)
Theorem release_uses_the_last_frame (s : State) :
  visible s = true ->
  match hitPoint (tick s) with
  | None => cameraRig (exec doTeleport (tick s)) = cameraRig s
  | Some h =>
      forall r cam, cameraRig s = Some r -> camera s = Some cam ->
        assigns_directly (tick s) r ->
        cameraRig (exec doTeleport (tick s))
          = Some (set_position (landing_position h cam r) r)
  end.
Proof.
  intros Hv.
  assert (Hfields : visible (tick s) = true /\ cameraRig (tick s) = cameraRig s /\
                    camera (tick s) = camera s).
  { unfold tick. rewrite Hv. simpl.
    destruct (arc s) as [[buf [h |]] rays]; simpl; auto. }
  destruct Hfields as (Hv' & Hr' & Hc').
  destruct (hitPoint (tick s)) as [h |] eqn:Hh.
  - intros r cam Hr Hc Hd. unfold exec.
    rewrite (doTeleport_assigns (tick s) h r cam Hv' Hh) by congruence.
    reflexivity.
  - unfold exec. rewrite (doTeleport_no_target (tick s) Hv') by auto.
    exact Hr'.
Qed.

End TeleportCases.

(** ** teleport-arc: more of the frame *)

Section FrameMore.
Import Three TeleportArc TeleportSpec.
Local Open Scope R_scope.

(** X13: the sampled arc is a parabola: the difference between two
    consecutive segments is the same all along the arc, the gravity times
    the square of the time step. *)
Theorem arc_second_difference (origin v0 g : Vector3) (i : nat) :
  sub (sub (pos_at origin v0 g (S (S i))) (pos_at origin v0 g (S i)))
      (sub (pos_at origin v0 g (S i)) (pos_at origin v0 g i))
  = multiplyScalar g (dt * dt).
Proof.
  unfold pos_at, addScaledVector, sub, multiplyScalar, dt.
  rewrite !S_INR. simpl.
  assert (H : 0.5 = / 2) by lra. rewrite H.
  generalize 0.06 (INR i). intros a t. f_equal; field.
Qed.

Lemma segment_rays_length (s : State) :
  (List.length (segment_rays s) <= samples (data s) - 1)%nat.
Proof.
  unfold segment_rays, consecutive_pairs.
  rewrite length_map.
  etransitivity; [apply filter_length_le |].
  rewrite length_map, length_seq. reflexivity.
Qed.

(** X14: a frame casts at most one ray for each pair of consecutive
    samples: never more than the sample count minus one, and none at all
    with a sample count of 0 or 1 or while the arc is hidden. *)
Theorem rays_per_frame (s : State) :
  (List.length (raysCast s) <= samples (data s) - 1)%nat /\
  (visible s = false -> raysCast s = []).
Proof.
  split.
  - destruct (visible s) eqn:Hv;
      [| unfold raysCast; rewrite Hv; simpl; lia].
    pose proof (segment_rays_length s) as Hlen.
    destruct (tick_rays s Hv)
      as [(_ & -> & _) | (before & r & after & h & _ & Hs & -> & _)];
      [exact Hlen |].
    rewrite Hs in Hlen. rewrite !length_app in *. simpl in *. lia.
  - intros Hv. unfold raysCast. rewrite Hv. reflexivity.
Qed.

End FrameMore.

Section FrameAgain.
Import Three TeleportArc TeleportSpec.
Variable cls : string.
Variable cast : Ray -> list Intersection.
Variables worldPos v0 g : Vector3.
Local Open Scope nat_scope.

Local Abbreviation P := (pos_at worldPos v0 g).
Local Abbreviation loop := (arcLoop cls cast worldPos v0 g).
Local Abbreviation prev := (prev_of worldPos v0 g).
Local Abbreviation lands_at := (lands_at cls cast worldPos v0 g).
Local Abbreviation seg_rays := (seg_rays worldPos v0 g).

(** Writing a sample over an array that already holds it changes nothing. *)
Lemma write_sample_absorbed (i : nat) (pos : Vector3) (b buf : list R) :
  List.length b = List.length buf ->
  (forall m, m < S i * 3 -> b !! m = write_sample i pos buf !! m) ->
  write_sample i pos b = b.
Proof.
  intros Hlen Hlow. unfold write_sample.
  assert (Hx : <[i * 3 := x pos]> b = b).
  { apply list_insert_id'. intros Hi. rewrite Hlow by lia.
    unfold write_sample. rewrite !list_lookup_insert_ne by lia.
    apply list_lookup_insert_eq. lia. }
  rewrite Hx.
  assert (Hy : <[i * 3 + 1 := y pos]> b = b).
  { apply list_insert_id'. intros Hi. rewrite Hlow by lia.
    unfold write_sample. rewrite list_lookup_insert_ne by lia.
    apply list_lookup_insert_eq. rewrite length_insert. lia. }
  rewrite Hy.
  apply list_insert_id'. intros Hi. rewrite Hlow by lia.
  unfold write_sample. apply list_lookup_insert_eq. rewrite !length_insert. lia.
Qed.

(** The loop run again on the array it produced gives the same array, the
    same hit and the same rays. *)
Lemma arcLoop_again (n : nat) : forall (i : nat) (buf : list R) (rays : list Ray),
  loop n i (prev i) (fst (fst (loop n i (prev i) buf rays))) rays
  = loop n i (prev i) buf rays.
Proof.
  induction n as [| n IH]; intros i buf rays; [reflexivity |].
  destruct (lands_at i) eqn:El.
  - destruct (arcLoop_lands cls cast worldPos v0 g n i buf rays El)
      as (r & h & Hs & Hh & E).
    rewrite E. cbn [fst].
    destruct (arcLoop_lands cls cast worldPos v0 g n i
                (write_sample i (P i) buf) rays El)
      as (r' & h' & Hs' & Hh' & E').
    rewrite E'. rewrite Hs in Hs'. injection Hs' as <-.
    rewrite Hh in Hh'. injection Hh' as <-.
    rewrite (write_sample_absorbed i (P i) _ buf); [reflexivity | |].
    + apply write_sample_length.
    + reflexivity.
  - destruct (arcLoop_goes_on cls cast worldPos v0 g n i buf rays El) as [_ E].
    rewrite E.
    destruct (arcLoop_buffer cls cast worldPos v0 g n (S i)
                (write_sample i (P i) buf) (rays ++ seg_rays i))
      as (Hlen & _ & Hlow & _).
    destruct (arcLoop_goes_on cls cast worldPos v0 g n i
                (fst (fst (loop n (S i) (prev (S i))
                             (write_sample i (P i) buf) (rays ++ seg_rays i))))
                rays El) as [_ E'].
    rewrite E'.
    rewrite (write_sample_absorbed i (P i) _ buf).
    + apply IH.
    + rewrite Hlen. apply write_sample_length.
    + intros m Hm. apply Hlow. exact Hm.
Qed.

End FrameAgain.

Section FrameTwice.
Import Three TeleportArc TeleportSpec.

(** X15: a frame is a recomputation: with the controller and the scene as
    they are, a second frame right after a first changes nothing. *)
Theorem tick_twice (s : State) : tick (tick s) = tick s.
Proof.
  unfold tick at 2 3.
  destruct (visible s) eqn:Hv; simpl; [| unfold tick; rewrite Hv; reflexivity].
  pose proof (arcLoop_again (landingClass (data s)) (intersectObjects s)
                (el_worldPosition s)
                (multiplyScalar (normalize (el_worldDirection s)) (velocity (data s)))
                (vec3 (x (gravity (data s))) (y (gravity (data s)))
                      (z (gravity (data s))))
                (samples (data s)) 0 (positions s) []) as Hagain.
  change (arcLoop _ _ _ _ _ (samples (data s)) 0 _ (positions s) [])
    with (arc s) in Hagain.
  destruct (arc s) as [[buf hit] rays] eqn:E. cbn [fst] in Hagain.
  destruct hit as [h |].
  - unfold tick. cbn [visible set_frame]. rewrite Hv. cbn [negb].
    unfold arc. cbn [el_worldPosition el_worldDirection data positions
                     intersectObjects set_frame].
    cbv zeta.
    change (prev_of _ _ _ 0) with (@None Vector3) in Hagain.
    rewrite Hagain. reflexivity.
  - unfold tick. cbn [visible set_frame]. rewrite Hv. cbn [negb].
    unfold arc. cbn [el_worldPosition el_worldDirection data positions
                     intersectObjects set_frame].
    cbv zeta.
    change (prev_of _ _ _ 0) with (@None Vector3) in Hagain.
    rewrite Hagain. reflexivity.
Qed.

End FrameTwice.

(** ** grab-control on its entity *)

Section GrabDispatch.
Import Js Three GrabControl GrabMounted.
Context {L : AmmoAPI}.

Lemma down_is_not_up (button : string) :
  String.append button "down" <> String.append button "up".
Proof.
  induction button as [| c button IH]; simpl; [discriminate |].
  intros H. injection H as H. exact (IH H).
Qed.

(** X16: with the [button] of its schema, the component runs
    [onButtonDown] on the event [button + 'down'], [onButtonUp] on the event
    [button + 'up'], each once, and nothing on an event of any other name;
    no event runs both. *)
Theorem events_by_button (button name : string) (s : State) :
  (name = String.append button "down" ->
     dispatch name (listeners button) s = exec onButtonDown s) /\
  (name = String.append button "up" ->
     dispatch name (listeners button) s = exec onButtonUp s) /\
  (name <> String.append button "down" -> name <> String.append button "up" ->
     dispatch name (listeners button) s = s).
Proof.
  unfold listeners. simpl.
  destruct (String.eqb_spec (String.append button "down") name) as [Hd | Hd];
    destruct (String.eqb_spec (String.append button "up") name) as [Hu | Hu].
  - exfalso. apply (down_is_not_up button). congruence.
  - split; [reflexivity |]. split; intros; congruence.
  - split; [intros; congruence |]. split; [reflexivity | intros; congruence].
  - split; [intros; congruence |]. split; [intros; congruence | reflexivity].
Qed.

End GrabDispatch.

(** ** teleport-arc on its entity *)

Module TeleportLife.
Import Js Three TeleportArc TeleportSpec Teleport TeleportMounted.
Local Open Scope R_scope.

Lemma listeners_init (s : State) :
  listeners (init s) =
    [("triggerdown"%string, ShowArc); ("triggerup"%string, DoTeleport);
     ("controllerdisconnected"%string, HideArc)].
Proof. reflexivity. Qed.

(** The three listeners of [init] on an event of a given name. *)
Lemma dispatch_init (name : string) (s0 s : State) :
  dispatch_to name (listeners (init s0)) s =
    if String.eqb "triggerdown" name then showArc s
    else if String.eqb "triggerup" name then exec doTeleport s
    else if String.eqb "controllerdisconnected" name then hideArc s
    else s.
Proof.
  rewrite listeners_init. cbn [dispatch_to].
  destruct (String.eqb_spec "triggerdown" name) as [<- | H1]; [reflexivity |].
  destruct (String.eqb_spec "triggerup" name) as [<- | H2]; [reflexivity |].
  destruct (String.eqb_spec "controllerdisconnected" name); reflexivity.
Qed.

Lemma run_listeners (evs : list Event) : forall m,
  listeners (run evs m) = listeners m.
Proof.
  induction evs as [| ev evs IH]; intros m; [reflexivity |].
  simpl. rewrite IH. destruct ev; reflexivity.
Qed.

Lemma handler_consistent (n : nat) (h : Handler) (s : State) :
  arc_consistent n s -> arc_consistent n (exec (run_handler h) s).
Proof.
  intros (Hl & Hc & Hh & Hp). destruct h; simpl.
  - repeat split; auto. discriminate.
  - destruct (doTeleport_effect s) as [-> | (_ & Hv & Hl' & Hc' & Hh' & Hp' & _)].
    + repeat split; auto.
    + unfold arc_consistent. rewrite Hv, Hl', Hc', Hp'. auto.
  - repeat split; auto.
Qed.

Lemma dispatch_consistent (n : nat) (name : string)
  (ls : list (string * Handler)) : forall s,
  arc_consistent n s -> arc_consistent n (dispatch_to name ls s).
Proof.
  induction ls as [| [t h] ls IH]; intros s H; [exact H |].
  simpl. destruct (String.eqb t name); [| exact (IH s H)].
  apply IH, handler_consistent, H.
Qed.

Lemma tick_consistent (n : nat) (s : State) :
  arc_consistent n s -> arc_consistent n (tick s).
Proof.
  intros (Hl & Hc & Hh & Hp).
  destruct (visible s) eqn:Hv.
  - destruct (tick_visible s Hv) as (_ & _ & _ & Hv' & Hc').
    destruct (tick_positions s Hv) as (Hlen & _).
    assert (Hl' : line_visible (tick s) = line_visible s).
    { unfold tick. rewrite Hv. simpl.
      destruct (arc s) as [[buf [h |]] rays]; reflexivity. }
    unfold arc_consistent. rewrite Hv', Hc', Hl', Hlen.
    split; [exact Hl |]. split; [reflexivity |].
    split; [discriminate | exact Hp].
  - unfold tick. rewrite Hv. simpl. unfold arc_consistent. rewrite Hv.
    split; [exact Hl |]. split; [exact Hc |]. split; [exact Hh | exact Hp].
Qed.

Lemma step_consistent (n : nat) (ev : Event) (m : Mounted) :
  arc_consistent n (component m) -> arc_consistent n (component (step ev m)).
Proof.
  intros H. destruct ev as [name | p d]; simpl.
  - apply dispatch_consistent, H.
  - apply tick_consistent. exact H.
Qed.

Lemma run_consistent (n : nat) (evs : list Event) : forall m,
  arc_consistent n (component m) -> arc_consistent n (component (run evs m)).
Proof.
  induction evs as [| ev evs IH]; intros m H; [exact H |].
  simpl. apply IH, step_consistent, H.
Qed.

Lemma init_consistent (s : State) :
  arc_consistent (samples (data s) * 3) (component (init s)).
Proof.
  unfold arc_consistent. simpl. unfold init_positions.
  rewrite repeat_length. auto.
Qed.

(** X17: from [init] on, through any sequence of events on the entity and
    of frames: the line is visible exactly while the arc is; the cursor is
    never visible; there is no landing hit while the arc is hidden; and the
    position array keeps the length [init] gave it, three numbers for each
    sample. *)
Theorem arc_stays_consistent (s : State) (evs : list Event) :
  arc_consistent (samples (data s) * 3) (component (run evs (init s))).
Proof. apply run_consistent, init_consistent. Qed.

(** X18: from [init] on, the rig can change only on [triggerup], and only
    when the arc is visible, a landing hit is recorded and the scene has a
    camera: every other event, and every frame, leaves the rig alone. *)
Theorem rig_changes_only_on_release (s : State) (evs : list Event) (ev : Event) :
  ev <> Dom "triggerup" \/
  visible (component (run evs (init s))) = false \/
  hitPoint (component (run evs (init s))) = None \/
  camera (component (run evs (init s))) = None ->
  cameraRig (component (step ev (run evs (init s))))
  = cameraRig (component (run evs (init s))).
Proof.
  intros H. set (m := run evs (init s)) in *.
  destruct ev as [name | p d]; simpl.
  - unfold m at 1. rewrite run_listeners. fold m. rewrite dispatch_init.
    destruct (String.eqb_spec "triggerdown" name) as [<- | H1]; [reflexivity |].
    destruct (String.eqb_spec "triggerup" name) as [<- | H2].
    + apply doTeleport_rig_unchanged.
      destruct H as [H | H]; [congruence | exact H].
    + destruct (String.eqb "controllerdisconnected" name); reflexivity.
  - unfold tick. simpl. destruct (visible (component m)); simpl; [| reflexivity].
    destruct (arc (set_pose p d (component m))) as [[buf [h |]] rays]; reflexivity.
Qed.

(** X19: pressing and releasing the trigger with no frame in between
    never moves the rig: from [init] on, whenever the arc is hidden,
    [triggerdown] followed at once by [triggerup] leaves the rig where it
    is and the arc hidden, with no landing hit. *)
Theorem press_and_release_without_frame (s : State) (evs : list Event) :
  visible (component (run evs (init s))) = false ->
  let m' := run [Dom "triggerdown"; Dom "triggerup"] (run evs (init s)) in
  cameraRig (component m') = cameraRig (component (run evs (init s))) /\
  visible (component m') = false /\
  hitPoint (component m') = None.
Proof.
  intros Hv m'. subst m'.
  destruct (run_consistent _ evs (init s) (init_consistent s)) as (_ & _ & Hh & _).
  specialize (Hh Hv).
  pose proof (run_listeners evs (init s)) as Hls.
  set (m := run evs (init s)) in *.
  assert (E : doTeleport (showArc (component m))
              = (Normal tt, hideArc (showArc (component m)))).
  { apply doTeleport_no_target; [reflexivity | left; exact Hh]. }
  assert (Em : component (run [Dom "triggerdown"; Dom "triggerup"] m)
               = hideArc (showArc (component m))).
  { cbn [run fold_left step component listeners]. rewrite Hls, !dispatch_init.
    change (String.eqb "triggerdown" "triggerdown") with true.
    change (String.eqb "triggerdown" "triggerup") with false.
    change (String.eqb "triggerup" "triggerup") with true.
    cbv iota. unfold exec. rewrite E. reflexivity. }
  rewrite Em. simpl. auto.
Qed.

(** X20: [remove] undoes the registrations of [init]: from [init] on, once
    the component is removed no event on the entity, whatever its name,
    reaches the component, and the line and the cursor are out of the scene
    graph. *)
Theorem remove_detaches (s : State) (evs : list Event) (name : string) :
  let m := remove (run evs (init s)) in
  listeners m = [] /\
  component (step (Dom name) m) = component (run evs (init s)) /\
  line_attached m = false /\ cursor_attached m = false.
Proof.
  intros m. subst m.
  assert (E : listeners (remove (run evs (init s))) = []).
  { unfold remove. cbn [listeners]. rewrite run_listeners, listeners_init.
    reflexivity. }
  split; [exact E |]. split; [| split; reflexivity].
  cbn [step component]. rewrite E. reflexivity.
Qed.

End TeleportLife.

(** ** teleport-arc: where the camera lands *)

Section Landing.
Import Js Three TeleportArc TeleportSpec Teleport.
Local Open Scope R_scope.

(** X21: a teleport on the direct path, with a parent frame of the rig
    that is invertible and a camera that rides on the rig (its offset from
    the rig does not depend on where the rig is): the rig's world position
    becomes the hit point minus the offset of the camera, the camera's
    world position becomes the hit point itself, and the arc is hidden. *)
Theorem teleport_puts_camera_at_hit (s : State) (hit : Vector3) (r : Rig)
  (cam : Camera) :
  visible s = true -> hitPoint s = Some hit -> cameraRig s = Some r ->
  camera s = Some cam -> assigns_directly s r ->
  (forall f v, parent (object3D r) = Some f -> localToWorld f (worldToLocal f v) = v) ->
  (forall o, parent o = parent (object3D r) ->
     sub (camera_worldPosition cam o) (getWorldPosition o)
     = sub (camera_worldPosition cam (object3D r)) (getWorldPosition (object3D r))) ->
  exists r',
    cameraRig (exec doTeleport s) = Some r' /\
    getWorldPosition (object3D r')
      = sub hit (sub (camera_worldPosition cam (object3D r))
                     (getWorldPosition (object3D r))) /\
    camera_worldPosition cam (object3D r') = hit /\
    visible (exec doTeleport s) = false /\
    hitPoint (exec doTeleport s) = None.
Proof.
  intros Hv Hh Hr Hc Hd Hframe Hride.
  destruct (doTeleport_world_position s hit r cam Hv Hh Hr Hc Hd Hframe)
    as (r' & Hr' & _ & Hw & Hcam).
  exists r'. split; [exact Hr' |]. split; [exact Hw |].
  split; [exact (proj2 (Hcam Hride)) |].
  unfold exec. rewrite (doTeleport_assigns s hit r cam Hv Hh Hr Hc Hd).
  split; reflexivity.
Qed.

End Landing.

(** ** teleport-arc: the further properties on the concrete aim *)

Module TeleportLifeRuns.
Import Js Three TeleportArc TeleportSpec Teleport TeleportMounted TeleportLife Aim.
Local Open Scope R_scope.

Lemma sub_add_same (w v : Vector3) : sub (add w v) w = v.
Proof.
  destruct w as [wx wy wz], v as [vx vy vz]. unfold sub, add. simpl.
  f_equal; ring.
Qed.

Lemma release_uses_the_last_frame_witness :
  visible aiming = true /\
  match hitPoint (tick aiming) with
  | None => cameraRig (exec doTeleport (tick aiming)) = cameraRig aiming
  | Some h =>
      forall r cam, cameraRig aiming = Some r -> camera aiming = Some cam ->
        assigns_directly (tick aiming) r ->
        cameraRig (exec doTeleport (tick aiming))
          = Some (set_position (landing_position h cam r) r)
  end.
Proof.
  split; [reflexivity |].
  exact (release_uses_the_last_frame aiming eq_refl).
Defined.

Lemma rig_changes_only_on_release_witness :
  (Frame (vec3 0 1 0) (vec3 0 0 (-1)) <> Dom "triggerup" \/
   visible (component (run [Dom "triggerdown"] (init aiming))) = false \/
   hitPoint (component (run [Dom "triggerdown"] (init aiming))) = None \/
   camera (component (run [Dom "triggerdown"] (init aiming))) = None) /\
  cameraRig (component (step (Frame (vec3 0 1 0) (vec3 0 0 (-1)))
                          (run [Dom "triggerdown"] (init aiming))))
  = cameraRig (component (run [Dom "triggerdown"] (init aiming))).
Proof.
  assert (H : Frame (vec3 0 1 0) (vec3 0 0 (-1)) <> Dom "triggerup" \/
              visible (component (run [Dom "triggerdown"] (init aiming))) = false \/
              hitPoint (component (run [Dom "triggerdown"] (init aiming))) = None \/
              camera (component (run [Dom "triggerdown"] (init aiming))) = None)
    by (left; discriminate).
  split; [exact H |].
  exact (rig_changes_only_on_release aiming [Dom "triggerdown"]
           (Frame (vec3 0 1 0) (vec3 0 0 (-1))) H).
Defined.

Lemma press_and_release_without_frame_witness :
  visible (component (run [] (init aiming))) = false /\
  cameraRig (component (run [Dom "triggerdown"; Dom "triggerup"] (run [] (init aiming))))
  = cameraRig (component (run [] (init aiming))).
Proof.
  split; [reflexivity |].
  exact (proj1 (press_and_release_without_frame aiming [] eq_refl)).
Defined.

Lemma teleport_puts_camera_at_hit_witness :
  visible aiming = true /\ hitPoint aiming = Some (vec3 0 0 (-5)) /\
  cameraRig aiming = Some rig /\ camera aiming = Some head /\
  assigns_directly aiming rig /\
  (forall f v, parent (object3D rig) = Some f ->
               localToWorld f (worldToLocal f v) = v) /\
  (forall o, parent o = parent (object3D rig) ->
     sub (camera_worldPosition head o) (getWorldPosition o)
     = sub (camera_worldPosition head (object3D rig))
           (getWorldPosition (object3D rig))) /\
  exists r',
    cameraRig (exec doTeleport aiming) = Some r' /\
    camera_worldPosition head (object3D r') = vec3 0 0 (-5).
Proof.
  assert (Hd : assigns_directly aiming rig) by (left; reflexivity).
  assert (Hf : forall f v, parent (object3D rig) = Some f ->
                           localToWorld f (worldToLocal f v) = v)
    by (intros f v H; discriminate).
  assert (Hride : forall o, parent o = parent (object3D rig) ->
            sub (camera_worldPosition head o) (getWorldPosition o)
            = sub (camera_worldPosition head (object3D rig))
                  (getWorldPosition (object3D rig))).
  { intros o _. unfold head. cbn [camera_worldPosition].
    rewrite !sub_add_same. reflexivity. }
  split; [reflexivity |]. split; [reflexivity |]. split; [reflexivity |].
  split; [reflexivity |]. split; [exact Hd |]. split; [exact Hf |].
  split; [exact Hride |].
  destruct (teleport_puts_camera_at_hit aiming (vec3 0 0 (-5)) rig head
              eq_refl eq_refl eq_refl eq_refl Hd Hf Hride)
    as (r' & Hr' & _ & Hcam & _).
  exists r'. split; [exact Hr' | exact Hcam].
Defined.

End TeleportLifeRuns.

(** ** grab-control: the order of the scene, and what a grab announces *)

Section GrabOrder.
Import Js Three GrabControl GrabSpec GrabNotions GrabScan.
Context {L : AmmoAPI}.
Local Open Scope R_scope.

Lemma eligible_in_reach (self e : Entity) :
  has_ammo_body e = true -> eligible self e ->
  dist self e < interactionRadius -> in_reach self e = true.
Proof.
  intros Ha (Hs & Hg & Hm) Hd. unfold in_reach.
  rewrite Ha, Hs, Hg, (Rltb_true _ _ Hd).
  destruct (mesh e); [reflexivity | congruence].
Qed.

(** What is selected is a candidate in reach at the least distance. *)
Lemma closestEl_least (self : Entity) (scene : list Entity) (e : Entity) :
  closestEl self scene = Some e ->
  In e scene /\ in_reach self e = true /\
  forall x, In x scene -> in_reach self x = true -> dist self e <= dist self x.
Proof.
  intros H. pose proof (closestEl_spec self scene) as Hs. rewrite H in Hs.
  destruct Hs as (l1 & l2 & Hc & He & Hd & H1 & H2).
  assert (Hin : In e (querySelectorAll_ammo_body scene)).
  { rewrite Hc. apply in_or_app. right. left. reflexivity. }
  apply List.filter_In in Hin as [Hin Ha].
  split; [exact Hin |]. split; [apply eligible_in_reach; assumption |].
  intros x Hx Hr. destruct (in_reach_eligible self x Hr) as (Hax & Hex & _).
  assert (Hxc : In x (querySelectorAll_ammo_body scene)).
  { apply List.filter_In. auto. }
  rewrite Hc in Hxc. apply in_app_or in Hxc as [Hx1 | [<- | Hx2]].
  - left. exact (H1 x Hx1 Hex).
  - right. reflexivity.
  - exact (H2 x Hx2 Hex).
Qed.

(** Nothing is selected only when no candidate is in reach. *)
Lemma closestEl_none (self : Entity) (scene : list Entity) :
  closestEl self scene = None ->
  forall x, In x scene -> in_reach self x = false.
Proof.
  intros H x Hx. pose proof (closestEl_spec self scene) as Hs. rewrite H in Hs.
  destruct (in_reach self x) eqn:Hr; [| reflexivity].
  destruct (in_reach_eligible self x Hr) as (Ha & He & Hd).
  assert (Hxc : In x (querySelectorAll_ammo_body scene)).
  { apply List.filter_In. auto. }
  pose proof (Hs x Hxc He). lra.
Qed.

(** X22: when no two candidates in reach are at the same distance from
    the hand, what the scan selects does not depend on the order of the
    entities in the scene. *)
Theorem selection_independent_of_order (self : Entity) (scene scene' : list Entity) :
  Permutation scene scene' ->
  (forall a b, In a scene -> In b scene ->
     in_reach self a = true -> in_reach self b = true ->
     dist self a = dist self b -> a = b) ->
  closestEl self scene = closestEl self scene'.
Proof.
  intros Hp Hdistinct.
  assert (Hin : forall x, In x scene' -> In x scene).
  { intros x Hx. apply (Permutation_in x (Permutation_sym Hp) Hx). }
  assert (Hin' : forall x, In x scene -> In x scene').
  { intros x Hx. apply (Permutation_in x Hp Hx). }
  destruct (closestEl self scene) as [e |] eqn:E;
    destruct (closestEl self scene') as [e' |] eqn:E'.
  - destruct (closestEl_least self scene e E) as (He & Hr & Hmin).
    destruct (closestEl_least self scene' e' E') as (He' & Hr' & Hmin').
    f_equal. apply Hdistinct; auto.
    apply Rle_antisym; [apply Hmin | apply Hmin']; auto.
  - destruct (closestEl_least self scene e E) as (He & Hr & _).
    rewrite (closestEl_none self scene' E' e (Hin' e He)) in Hr. discriminate.
  - destruct (closestEl_least self scene' e' E') as (He' & Hr' & _).
    rewrite (closestEl_none self scene E e' (Hin e' He')) in Hr'. discriminate.
  - reflexivity.
Qed.

(** X23: [grab] announces exactly what it registers: either it leaves
    both the physics world and the event log as they are, or it adds the
    constraint it now refers to, with collisions between the two bodies
    disabled, records its target, and emits one [grab-start] on it. *)
Theorem grab_announces_what_it_registers (target : Entity) (s : State) :
  (physicsWorld (exec (grab target) s) = physicsWorld s /\
   emitted (exec (grab target) s) = emitted s)
  \/
  (exists w c,
     physicsWorld s = Some w /\
     physicsWorld (exec (grab target) s) = Some (w ++ [(c, true)]) /\
     constraint (exec (grab target) s) = Some c /\
     grabbedObject (exec (grab target) s) = Some target /\
     emitted (exec (grab target) s)
       = emitted s ++ [(el_id target, "grab-start"%string)]).
Proof.
  destruct (body (el s)) as [hb |] eqn:Hh;
    [| left; unfold exec; rewrite grab_no_body by auto; auto].
  destruct (body target) as [ob |] eqn:Ho;
    [| left; unfold exec; rewrite grab_no_body by auto; auto].
  destruct (window_Ammo s) eqn:HA;
    [| left; unfold exec; rewrite (grab_no_Ammo target s hb ob Hh Ho HA); auto].
  destruct (physicsWorld s) as [w |] eqn:Hw.
  - right. exists w, (welded hb ob (4 + next_handle s)).
    destruct (grab_success target s hb ob w Hh Ho HA Hw)
      as (_ & Hc & Hg & Hp & _ & He & _).
    auto.
  - left.
    destruct (grab_no_physics target s hb ob Hh Ho HA Hw)
      as (_ & _ & _ & Hp & _ & He).
    auto.
Qed.

End GrabOrder.

Module GrabOrderRuns.
Import Js Three GrabControl GrabSpec GrabNotions Scene.
Local Open Scope R_scope.

Lemma dist_ball : dist hand Pages.ball = 0.1.
Proof. unfold dist. simpl. apply distanceTo_x_axis. lra. Qed.

Lemma cube_in_reach : in_reach hand cube = true.
Proof.
  unfold in_reach. rewrite GrabExamples.dist_cube, Rltb_true;
    [reflexivity | unfold interactionRadius; lra].
Qed.

Lemma ball_in_reach : in_reach hand Pages.ball = true.
Proof.
  unfold in_reach. rewrite dist_ball, Rltb_true;
    [reflexivity | unfold interactionRadius; lra].
Qed.

(** The scan meets the cube first and then the ball, which is nearer. *)
Lemma closestEl_ball : closestEl hand [hand; cube; Pages.ball] = Some Pages.ball.
Proof.
  unfold closestEl. cbn -[distanceTo Rltb interactionRadius].
  change (distanceTo (vec3 0 0 0) (vec3 0.2 0 0)) with (dist hand cube).
  change (distanceTo (vec3 0 0 0) (vec3 0.1 0 0)) with (dist hand Pages.ball).
  rewrite GrabExamples.dist_cube, dist_ball.
  rewrite (Rltb_true 0.2 interactionRadius) by (unfold interactionRadius; lra).
  rewrite (Rltb_true 0.1 0.2) by lra.
  reflexivity.
Qed.

(** Two candidates in reach, the cube at 0.2 and the ball at 0.1, in two
    orders: the ball is the second candidate of the first scene and the
    first of the second, and it is selected in both. *)
Lemma selection_independent_of_order_witness :
  Permutation [hand; cube; Pages.ball] [Pages.ball; hand; cube] /\
  (forall a b, In a [hand; cube; Pages.ball] -> In b [hand; cube; Pages.ball] ->
     in_reach hand a = true -> in_reach hand b = true ->
     dist hand a = dist hand b -> a = b) /\
  in_reach hand cube = true /\ in_reach hand Pages.ball = true /\
  closestEl hand [hand; cube; Pages.ball] = Some Pages.ball /\
  closestEl hand [Pages.ball; hand; cube] = Some Pages.ball.
Proof.
  assert (Hp : Permutation [hand; cube; Pages.ball] [Pages.ball; hand; cube]).
  { apply Permutation_sym, (Permutation_cons_app [hand; cube] []).
    reflexivity. }
  assert (Hd : forall a b, In a [hand; cube; Pages.ball] ->
             In b [hand; cube; Pages.ball] ->
             in_reach hand a = true -> in_reach hand b = true ->
             dist hand a = dist hand b -> a = b).
  { intros a b [<- | [<- | [<- | []]]] [<- | [<- | [<- | []]]] Ha Hb Hab;
      try reflexivity; try discriminate;
      rewrite GrabExamples.dist_cube, dist_ball in Hab; lra. }
  split; [exact Hp |]. split; [exact Hd |].
  split; [exact cube_in_reach |]. split; [exact ball_in_reach |].
  split; [exact closestEl_ball |].
  rewrite <- (selection_independent_of_order hand _ _ Hp Hd).
  exact closestEl_ball.
Defined.

End GrabOrderRuns.
